(** * simplerr/errors: error chains, stack capture and rendering

    A shallow embedding of the Go package
    [github.com/StevenACoffman/simplerr/errors]:

    - [stack.go]      : [Stack], [Callers], [ElideSharedStackSuffix];
    - [with.go]       : the combinator [With] and the methods of [wrapper];
    - [withstack.go]  : [WithStack], [getEntries], [formatEntries];
    - [withfields.go] : [WrapWithFields], [getFields], [GetFields];
    - [stderrors.go]  : [Is], [As];
    - [wrap.go]       : [Wrap];
    - [sentry.go]     : [ExtractSentryStacktrace], [convertPkgStack],
                        [parsePrintedStack] and its helpers, the names of
                        functions and packages, [NewSentryStacktrace];
    - the file of the error kinds : [getErrorKind], [newError].

    Go values are modelled as follows.  A slice is a [list], an [int] index
    that never goes below zero is a [nat], an index that may be [-1] is a
    [Z].  A nilable pointer or interface is an [option].  A heap cell that
    is compared by address carries an [ident].  A map is a [gmap].  A loop
    that walks an error chain is a function defined by well-founded
    recursion on the depth of the chain.  What is written to an
    [fmt.State] or a buffer is the [string] written so far, and a function
    that can panic returns an [option]. *)

From Stdlib Require Import ZArith Lia Ascii.
From stdpp Require Import gmap strings list fin_maps pretty sorting.
From Equations Require Import Equations.

Local Open Scope Z_scope.
Local Open Scope nat_scope.

(* ================================================================== *)
(** * Part I: definitions *)
(* ================================================================== *)

(** ** The functions of Go's [strings] package that the code calls

    A Go string is a sequence of bytes, here a [string] of the Standard
    Library.  Only byte-level functions are defined here; [TrimSpace] and
    [strconv.Atoi], whose results depend on Unicode tables and on the
    width of [int], are parameters of the sections that use them. *)
Module GoStrings.

(** [len(s)]. *)
Definition len (s : string) : nat := String.length s.

(** [strings.HasPrefix(s, prefix)]. *)
Definition HasPrefix (s prefix : string) : bool := String.prefix prefix s.

(** [s[i:]] for [i <= len(s)]. *)
Fixpoint slice_from (i : nat) (s : string) : string :=
  match i, s with
  | S i', String _ s' => slice_from i' s'
  | _, _ => s
  end.

(** [s[:i]] for [i <= len(s)]. *)
Fixpoint slice_to (i : nat) (s : string) : string :=
  match i, s with
  | S i', String c s' => String c (slice_to i' s')
  | _, _ => EmptyString
  end.

(** [strings.TrimPrefix(s, prefix)]. *)
Definition TrimPrefix (s prefix : string) : string :=
  if HasPrefix s prefix then slice_from (len prefix) s else s.

(** [strings.Split(s, sep)] for a separator of one byte: the pieces of [s]
    between the occurrences of [sep], one more than there are occurrences. *)
Fixpoint Split1 (s : string) (sep : ascii) : list string :=
  match s with
  | EmptyString => [EmptyString]
  | String c s' =>
      if Ascii.eqb c sep then EmptyString :: Split1 s' sep
      else match Split1 s' sep with
           | piece :: pieces => String c piece :: pieces
           | [] => [String c EmptyString]
           end
  end.

(** [strings.LastIndexByte(s, c)]: the index of the last [c] in [s], or [-1]. *)
Fixpoint LastIndexByte_from (i : Z) (s : string) (c : ascii) : Z :=
  match s with
  | EmptyString => (-1)%Z
  | String x s' =>
      let later := LastIndexByte_from (i + 1)%Z s' c in
      if (0 <=? later)%Z then later
      else if Ascii.eqb x c then i else (-1)%Z
  end.

Definition LastIndexByte (s : string) (c : ascii) : Z :=
  LastIndexByte_from 0%Z s c.

(** [strings.ReplaceAll(s, old, new)] for a non-empty [old]: the
    occurrences of [old] are replaced from left to right and do not
    overlap.  [skip] counts the bytes of a replaced occurrence that are
    still to be passed over. *)
Fixpoint ReplaceAll_from (skip : nat) (s old new : string) : string :=
  match s with
  | EmptyString => EmptyString
  | String c s' =>
      match skip with
      | S k => ReplaceAll_from k s' old new
      | O =>
          if HasPrefix s old
          then new +:+ ReplaceAll_from (len old - 1) s' old new
          else String c (ReplaceAll_from 0 s' old new)
      end
  end.

Definition ReplaceAll (s old new : string) : string :=
  ReplaceAll_from 0 s old new.

(** The line feed and the tab. *)
Definition LF : ascii := Ascii.ascii_of_nat 10.
Definition TAB : ascii := Ascii.ascii_of_nat 9.
Definition nl : string := String LF EmptyString.
Definition tab : string := String TAB EmptyString.

End GoStrings.

Import GoStrings.

(** ** stack.go: program counters and suffix elision *)

(** [uintptr]: a program counter. *)
Definition uintptr := Z.

(** [type Stack []uintptr], newest frame first.  A [*Stack] is an
    [option Stack]. *)
Definition Stack := list uintptr.

(** The loop of [ElideSharedStackSuffix]:
    [for i, j = len(newSt)-1, len(prevSt)-1; i > 0 && j > 0; i, j = i-1, j-1
       { if newSt[i] != prevSt[j] { break } }],
    started at [(i, j)]; the result is the value of [i] when it stops.  Both
    indices stay within their slices. *)
Fixpoint elide_loop (newSt prevSt : Stack) (i j : nat) : nat :=
  match i, j with
  | S i', S j' =>
      if bool_decide (nth i newSt 0%Z ≠ nth j prevSt 0%Z) then i
      else elide_loop newSt prevSt i' j'
  | _, _ => i
  end.

(** [ElideSharedStackSuffix(prevStack, newStack)]. *)
Definition ElideSharedStackSuffix (prevStack newStack : option Stack)
  : option Stack * bool :=
  match newStack, prevStack with
  | Some newSt, Some prevSt =>
      if length prevSt =? 0 then (newStack, false)
      else if length newSt =? 0 then (newStack, false)
      else
        let i := elide_loop newSt prevSt (length newSt - 1) (length prevSt - 1) in
        let i := if i =? 0 then 1 else i in
        let elidedStack := firstn i newSt in
        (Some elidedStack, i <? length newSt - 1)
  | _, _ => (newStack, false)
  end.

(** The number of entries on which two lists agree from their heads. *)
Fixpoint common_prefix_length (xs ys : list uintptr) : nat :=
  match xs, ys with
  | x :: xs', y :: ys' =>
      if bool_decide (x = y) then S (common_prefix_length xs' ys') else 0
  | _, _ => 0
  end.

(** The suffix that the documentation of [ElideSharedStackSuffix] speaks
    of: the number of frames on which [newSt] and [prevSt] agree, frame by
    frame from the oldest end. *)
Definition shared_suffix_length (newSt prevSt : Stack) : nat :=
  common_prefix_length (rev newSt) (rev prevSt).

(** The number [k] of newest frames of [newSt] that are not part of the
    shared suffix, at least one. *)
Definition unshared_frames (newSt prevSt : Stack) : nat :=
  Nat.max 1 (length newSt - shared_suffix_length newSt prevSt).

(** ** The error values

    [Fields] is [map[string]any]; the values that occur in the repository
    are strings, integers and booleans, and [nil]. *)
Inductive value : Type :=
| VNil
| VString (s : string)
| VInt (z : Z)
| VBool (b : bool).

(** [fmt.Sprintf("%v", v)]. *)
Definition fmt_v (v : value) : string :=
  match v with
  | VNil => "<nil>"
  | VString s => s
  | VInt z => pretty z
  | VBool b => if b then "true" else "false"
  end.

(** The identity of a heap cell.  A cell that exists when a function is
    called has an address, and the caller picks the address of the cell a
    constructor allocates.  A cell that [wrapper.Unwrap] allocates while a
    chain is walked is [Fresh]: it is a new cell, so no value that was
    given to the function points to it, and [Fresh] is equal to no
    identity. *)
Inductive ident : Type :=
| Addr (n : nat)
| Fresh.

(** Pointer equality. *)
Definition ident_eqb (p q : ident) : bool :=
  match p, q with
  | Addr n, Addr m => n =? m
  | _, _ => false
  end.

(** A non-nil [error].  The cases are the dynamic types that the package
    and its tests build: [*errors.errorString] (of [New]), [*fmt.wrapError]
    (of [fmt.Errorf] with [%w]), a comparable value type with an [Error]
    method only (such as [errorKind] or [main.ErrMyError]; [ty] is what [%T]
    prints), and the package's [*wrapper], [*withStack] and [*withFields].
    The fields [front], [back] and [cause] are never nil, because [With],
    [WithStackDepth] and [WrapWithFieldsAndDepth] return before they build
    a node around nil. *)
Inductive error : Type :=
| errorString (p : ident) (s : string)
| wrapError (p : ident) (msg : string) (err : error)
| valueError (ty : string) (msg : string)
| wrapper (p : ident) (front back : error)
| withStack (p : ident) (cause : error) (stack : option Stack)
    (hasSkippedFrames : bool)
| withFields (p : ident) (fields : gmap string value) (cause : error)
    (stack : option Stack) (hasSkippedFrames : bool).

(** [err == reference] on interface values: the same dynamic type, and the
    same pointer or, for a value type, the same contents.  Every dynamic
    type of [error] is comparable. *)
Definition equal (err reference : error) : bool :=
  match err, reference with
  | errorString p _, errorString q _ => ident_eqb p q
  | wrapError p _ _, wrapError q _ _ => ident_eqb p q
  | valueError t m, valueError t' m' => String.eqb t t' && String.eqb m m'
  | wrapper p _ _, wrapper q _ _ => ident_eqb p q
  | withStack p _ _ _, withStack q _ _ _ => ident_eqb p q
  | withFields p _ _ _ _, withFields q _ _ _ _ => ident_eqb p q
  | _, _ => false
  end.

(** [reflectlite.TypeOf(target).Comparable()]. *)
Definition Comparable (target : error) : bool := true.

(** The dynamic types of the errors. *)
Inductive dyntype : Type :=
| errorString_ptr
| wrapError_ptr
| value_type (ty : string)
| wrapper_ptr
| withStack_ptr
| withFields_ptr.

(** [reflectlite.TypeOf(err)]. *)
Definition TypeOf (err : error) : dyntype :=
  match err with
  | errorString _ _ => errorString_ptr
  | wrapError _ _ _ => wrapError_ptr
  | valueError ty _ => value_type ty
  | wrapper _ _ _ => wrapper_ptr
  | withStack _ _ _ _ => withStack_ptr
  | withFields _ _ _ _ _ => withFields_ptr
  end.

(** What [%T] prints. *)
Definition typeName (err : error) : string :=
  match TypeOf err with
  | errorString_ptr => "*errors.errorString"
  | wrapError_ptr => "*fmt.wrapError"
  | value_type ty => ty
  | wrapper_ptr => "*errors.wrapper"
  | withStack_ptr => "*errors.withStack"
  | withFields_ptr => "*errors.withFields"
  end.

(** [New(text)]; [p] is the address of the new cell. *)
Definition New (p : ident) (text : string) : error := errorString p text.

(** ** withfields.go: rendering of a field mapping *)

(** [sort.Strings(keys)] on the keys of [fields]. *)
Definition sorted_keys (fields : gmap string value) : list string :=
  merge_sort String.le (map fst (map_to_list fields)).

(** One iteration of the loop of [formatFields], at index [i] and key [k],
    appending to the builder [sb]. *)
Definition formatFields_step (fields : gmap string value) (sb : string)
    (i : nat) (k : string) : string :=
  let v := default VNil (fields !! k) in
  let sb := if 0 <? i then sb +:+ "," else sb in
  match v with
  | VNil => sb +:+ k
  | _ => sb +:+ k +:+ ":" +:+ fmt_v v
  end.

Fixpoint formatFields_loop (fields : gmap string value) (sb : string)
    (i : nat) (keys : list string) : string :=
  match keys with
  | [] => sb
  | k :: keys' =>
      formatFields_loop fields (formatFields_step fields sb i k) (S i) keys'
  end.

(** [formatFields(fields)]. *)
Definition formatFields (fields : gmap string value) : string :=
  if size fields =? 0 then ""
  else formatFields_loop fields "fields:[" 0 (sorted_keys fields) +:+ "],".

(** ** with.go, withstack.go, withfields.go: messages and unwrapping *)

(** The method [Error] of each dynamic type. *)
Fixpoint Error (err : error) : string :=
  match err with
  | errorString _ s => s
  | wrapError _ msg _ => msg
  | valueError _ msg => msg
  | wrapper _ s_front s_back =>
      let front := Error s_front in
      let back := Error s_back in
      if String.eqb front "" then back
      else if String.eqb back "" then front
      else front +:+ ": " +:+ back
  | withStack _ cause _ _ => Error cause
  | withFields _ fields cause _ _ => formatFields fields +:+ Error cause
  end.

(** [errors.Unwrap(err)] of the standard library: the result of the method
    [Unwrap() error] of [err], or nil when its type has none.  The case of
    [wrapper] is the method [wrapper.Unwrap]. *)
Fixpoint errors_Unwrap (err : error) : option error :=
  match err with
  | errorString _ _ => None
  | wrapError _ _ e => Some e
  | valueError _ _ => None
  | wrapper _ front back =>
      match errors_Unwrap front with
      | Some err => Some (wrapper Fresh err back)
      | None => Some back
      end
  | withStack _ cause _ _ => Some cause
  | withFields _ _ cause _ _ => Some cause
  end.

(** [(s *wrapper).Unwrap()] for [s = &wrapper{front, back}]. *)
Definition wrapper_Unwrap (front back : error) : option error :=
  match errors_Unwrap front with
  | Some err => Some (wrapper Fresh err back)
  | None => Some back
  end.

(** Modelled from the spec: [UnwrapOnce], whose file is not among the
    sources.  The spec calls it the single-step unwrap: the direct cause of
    the error if it has one, nil otherwise.  Every dynamic type modelled
    here that has a cause has the method [Unwrap], so the step is that of
    [errors.Unwrap]. *)
Definition UnwrapOnce (err : error) : option error := errors_Unwrap err.

(** [With(back, front)]; [p] is the address of the cell [&wrapper{...}]. *)
Definition With (p : ident) (back front : option error) : option error :=
  match back with
  | None => None
  | Some b =>
      match front with
      | None => back
      | Some f => Some (wrapper p f b)
      end
  end.

(** The number of unwrap steps from [err] to the end of its chain. *)
Fixpoint unwrap_depth (err : error) : nat :=
  match err with
  | errorString _ _ => 0
  | wrapError _ _ e => S (unwrap_depth e)
  | valueError _ _ => 0
  | wrapper _ front back => S (unwrap_depth front + unwrap_depth back)
  | withStack _ cause _ _ => S (unwrap_depth cause)
  | withFields _ _ cause _ _ => S (unwrap_depth cause)
  end.

Definition chain_length (err : option error) : nat :=
  match err with
  | None => 0
  | Some e => S (unwrap_depth e)
  end.

Lemma UnwrapOnce_decreases (e : error) :
  chain_length (UnwrapOnce e) < chain_length (Some e).
Proof.
  unfold UnwrapOnce.
  induction e as [| | |p f IHf b IHb| |]; simpl in *; try lia.
  destruct (errors_Unwrap f); simpl in *; lia.
Qed.

(** Closes the termination goal of a loop that unwraps its argument. *)
Ltac unwrap_decreases :=
  intros;
  first
    [ apply UnwrapOnce_decreases
    | match goal with
      | |- context [unwrap_depth ?f + unwrap_depth ?b] =>
          exact (UnwrapOnce_decreases (wrapper Fresh f b))
      end ].

(** ** stack.go: capturing the call stack *)

(** [runtime.Callers(skip, pcs)] with [len(pcs) = n], in a goroutine whose
    call stack, as [runtime.Callers] numbers it (entry [0] is
    [runtime.Callers] itself), is [goroutine]: the entries written to
    [pcs]. *)
Definition runtime_Callers (goroutine : list uintptr) (skip n : nat)
  : list uintptr :=
  firstn n (skipn skip goroutine).

Lemma captureStacktrace_grows (goroutine : list uintptr) (skip k : nat) :
  length (runtime_Callers goroutine skip (64 * 2 ^ k)) = 64 * 2 ^ k →
  length goroutine - S k < length goroutine - k.
Proof.
  unfold runtime_Callers. rewrite length_take, length_drop. intros H.
  assert (k < 2 ^ k) by (apply Nat.pow_gt_lin_r; lia). lia.
Qed.

(** The loop of [captureStacktrace], [for numFrames == len(pcs)]: the
    buffer [pcs], of [64 * 2^k] entries, is doubled for as long as
    [runtime.Callers] fills it.  The result is [pcs[:numFrames]]. *)
Equations captureStacktrace_loop (goroutine : list uintptr) (skip k : nat)
  : list uintptr by wf (length goroutine - k) lt :=
captureStacktrace_loop goroutine skip k
  with decide (length (runtime_Callers goroutine skip (64 * 2 ^ k))
               = 64 * 2 ^ k) := {
  | left _ => captureStacktrace_loop goroutine skip (S k)
  | right _ => runtime_Callers goroutine skip (64 * 2 ^ k)
  }.
Next Obligation. intros. by eapply captureStacktrace_grows. Qed.

(** [captureStacktrace(skip)]; the copy into [newPCs] has the same
    entries. *)
Definition captureStacktrace (goroutine : list uintptr) (skip : nat)
  : list uintptr :=
  let selfSkip := 2 in
  captureStacktrace_loop goroutine (skip + selfSkip) 0.

(** [Callers(skip)]: a pointer to the captured stack, never nil. *)
Definition Callers (goroutine : list uintptr) (skip : nat) : option Stack :=
  Some (captureStacktrace goroutine skip).

(** ** withstack.go: the annotation node *)

(** [getLastStack(err)]. *)
Equations getLastStack (err : option error) : option Stack
  by wf (chain_length err) lt :=
getLastStack None := None;
getLastStack (Some (withStack _ _ st _)) := st;
getLastStack (Some (withFields _ _ _ st _)) := st;
getLastStack (Some e) := getLastStack (UnwrapOnce e).
Next Obligation. unwrap_decreases. Qed.

(** [WithStackDepth(err, depth)]; [p] is the address of the new node, and
    [goroutine] the call stack that [runtime.Callers] sees when
    [captureStacktrace] calls it. *)
Definition WithStackDepth (goroutine : list uintptr) (p : ident)
    (err : option error) (depth : nat) : option error :=
  match err with
  | None => None
  | Some e =>
      let st := Callers goroutine (depth + 2) in
      let prevStack := getLastStack err in
      let '(st, hasSkippedFrames) := ElideSharedStackSuffix prevStack st in
      Some (withStack p e st hasSkippedFrames)
  end.

(** [WithStack(err)]. *)
Definition WithStack (goroutine : list uintptr) (p : ident)
    (err : option error) : option error :=
  WithStackDepth goroutine p err 1.

(** [WrapWithFieldsAndDepth(err, fields, depth)]; a nil map is [None]. *)
Definition WrapWithFieldsAndDepth (goroutine : list uintptr) (p : ident)
    (err : option error) (fields : option (gmap string value)) (depth : nat)
  : option error :=
  match err with
  | None => None
  | Some e =>
      match fields with
      | None => WithStackDepth goroutine p err (depth + 1)
      | Some fs =>
          let st := Callers goroutine (depth + 2) in
          let prevStack := getLastStack err in
          let '(st, hasSkippedFrames) := ElideSharedStackSuffix prevStack st in
          Some (withFields p fs e st hasSkippedFrames)
      end
  end.

(** [WrapWithFields(err, fields)]. *)
Definition WrapWithFields (goroutine : list uintptr) (p : ident)
    (err : option error) (fields : option (gmap string value)) : option error :=
  WrapWithFieldsAndDepth goroutine p err fields 1.

(** The loop of [getEntries]: each error is prepended to [entries]. *)
Equations getEntries_loop (err : option error) (entries : list error)
  : list error by wf (chain_length err) lt :=
getEntries_loop None entries := entries;
getEntries_loop (Some e) entries :=
  getEntries_loop (UnwrapOnce e) (e :: entries).
Next Obligation. unwrap_decreases. Qed.

(** [getEntries(err)]. *)
Definition getEntries (err : option error) : list error :=
  getEntries_loop err [].

(** The chain of [err], outermost first, by recursion on the structure of
    [err]: [err] itself, then the chain of its cause.  For a [wrapper] the
    errors after the first are a new [wrapper] over the same [back] around
    each later error of [front]'s chain, and after them the chain of
    [back]. *)
Fixpoint chain (err : error) : list error :=
  err ::
  match err with
  | errorString _ _ => []
  | wrapError _ _ e => chain e
  | valueError _ _ => []
  | wrapper _ front back =>
      map (λ f, wrapper Fresh f back) (tail (chain front)) ++ chain back
  | withStack _ cause _ _ => chain cause
  | withFields _ _ cause _ _ => chain cause
  end.

Definition chain_of (err : option error) : list error :=
  match err with
  | None => []
  | Some e => chain e
  end.

(** ** with.go, withstack.go, withfields.go, stderrors.go: [Is]

    [wrapper.Is] calls [errors.Is] of the standard library on every error
    of its own chain, and [errors.Is] calls the method [Is] of every error
    it visits, [wrapper.Is] among them.  The three mutually recursive
    activities are the cases of [Is_call]; [Is_run] runs one of them. *)
Inductive Is_call : Type :=
| call_method_Is (x : error)
    (* [x.Is(target)] behind the type assertion
       [x, ok := err.(interface{ Is(error) bool })] *)
| call_errors_Is (err : option error)
    (* the loop of [errors.Is(err, target)], standard library *)
| call_wrapper_Is_loop (inner : option error).
    (* the loop [for inner := ...; inner != nil; inner = UnwrapOnce(inner)]
       of [wrapper.Is] *)

Definition Is_measure (c : Is_call) : nat :=
  match c with
  | call_method_Is x => 3 * unwrap_depth x + 1
  | call_errors_Is None => 0
  | call_errors_Is (Some e) => 3 * unwrap_depth e + 2
  | call_wrapper_Is_loop None => 0
  | call_wrapper_Is_loop (Some e) => 3 * unwrap_depth e + 3
  end.

Lemma Is_measure_unwrap_errors (e : error) :
  Is_measure (call_errors_Is (errors_Unwrap e)) < 3 * unwrap_depth e + 2.
Proof.
  pose proof (UnwrapOnce_decreases e) as H. unfold UnwrapOnce in H.
  destruct (errors_Unwrap e); simpl in *; lia.
Qed.

Lemma Is_measure_unwrap_loop (e : error) :
  Is_measure (call_wrapper_Is_loop (UnwrapOnce e)) < 3 * unwrap_depth e + 3.
Proof.
  pose proof (UnwrapOnce_decreases e) as H.
  destruct (UnwrapOnce e); simpl in *; lia.
Qed.

Lemma Is_measure_wrapper_Unwrap (front back : error) :
  Is_measure (call_wrapper_Is_loop (wrapper_Unwrap front back))
  < 3 * S (unwrap_depth front + unwrap_depth back) + 1.
Proof.
  unfold wrapper_Unwrap.
  pose proof (UnwrapOnce_decreases front) as H. unfold UnwrapOnce in H.
  destruct (errors_Unwrap front); simpl in *; lia.
Qed.

(** [Is_run target c] for a non-nil [target]. *)
Equations Is_run (target : error) (c : Is_call) : bool
  by wf (Is_measure c) lt :=
Is_run target (call_method_Is (wrapper _ front back)) :=
  if Comparable target && equal front target then true
  else if Is_run target (call_method_Is front) then true
  else if Is_run target (call_method_Is back) then true
  else Is_run target (call_wrapper_Is_loop (wrapper_Unwrap front back));
Is_run target (call_method_Is (withStack _ cause _ _)) :=
  if Comparable target && equal cause target then true
  else if Is_run target (call_method_Is cause) then true
  else false;
Is_run target (call_method_Is (withFields _ _ cause _ _)) :=
  if Comparable target && equal cause target then true
  else if Is_run target (call_method_Is cause) then true
  else false;
Is_run target (call_method_Is _) := false;
Is_run target (call_errors_Is None) := false;
Is_run target (call_errors_Is (Some err)) :=
  if Comparable target && equal err target then true
  else if Is_run target (call_method_Is err) then true
  else Is_run target (call_errors_Is (errors_Unwrap err));
Is_run target (call_wrapper_Is_loop None) := false;
Is_run target (call_wrapper_Is_loop (Some inner)) :=
  if Is_run target (call_errors_Is (Some inner)) then true
  else Is_run target (call_wrapper_Is_loop (UnwrapOnce inner)).
Next Obligation. intros. simpl. lia. Qed.
Next Obligation. intros. simpl. lia. Qed.
Next Obligation. intros. apply Is_measure_wrapper_Unwrap. Qed.
Next Obligation. intros. simpl. lia. Qed.
Next Obligation. intros. simpl. lia. Qed.
Next Obligation. intros. simpl. lia. Qed.
Next Obligation. intros. apply Is_measure_unwrap_errors. Qed.
Next Obligation. intros. simpl. lia. Qed.
Next Obligation. intros. apply Is_measure_unwrap_loop. Qed.

(** [x.Is(target)] for an [x] of any dynamic type: [false] when the type
    has no method [Is], and the method's result otherwise.  The methods
    return [false] for a nil [target]. *)
Definition method_Is (x : error) (target : option error) : bool :=
  match target with
  | None => false
  | Some t => Is_run t (call_method_Is x)
  end.

(** One visit of the loop of [Is] or of [errors.Is]: the error is the
    target, or its method [Is] accepts the target. *)
Definition Is_visit (target c : error) : bool :=
  equal c target || Is_run target (call_method_Is c).

(** [(s *wrapper).Is(target)] for [s = &wrapper{front, back}]. *)
Definition wrapper_Is (p : ident) (front back : error)
    (target : option error) : bool :=
  method_Is (wrapper p front back) target.

(** [errors.Is(err, target)] of the standard library. *)
Definition errors_Is (err target : option error) : bool :=
  match err, target with
  | Some _, Some t => Is_run t (call_errors_Is err)
  | None, None => true
  | _, _ => false
  end.

(** [tryDelegateToIsMethod(err, reference)]. *)
Definition tryDelegateToIsMethod (err reference : error) : bool :=
  method_Is err (Some reference).

(** The loop of [Is], [for c := err; c != nil; c = UnwrapOnce(c)]. *)
Equations Is_loop (reference : error) (c : option error) : bool
  by wf (chain_length c) lt :=
Is_loop reference None := false;
Is_loop reference (Some c) :=
  if equal c reference then true
  else if tryDelegateToIsMethod c reference then true
  else Is_loop reference (UnwrapOnce c).
Next Obligation. unwrap_decreases. Qed.

(** [Is(err, reference)]. *)
Definition Is (err reference : option error) : bool :=
  match reference with
  | None => match err with None => true | Some _ => false end
  | Some r => Is_loop r err
  end.

(** ** [As]

    The type that [target] points to is given by the set of dynamic types
    assignable to it.  [As] stores the
    error it finds in [*target] and returns [true]; here it returns the
    stored error, and [None] for [false].  A [target] that makes [As]
    panic (nil, or not a pointer to an interface or to a type that
    implements [error]) has no counterpart. *)
Definition targetType := dyntype → bool.

(** The type of [v] in [var v T] for a value type [T] that [%T] prints as
    [ty]; the address of [v] is then a target of [As]. *)
Definition value_target (ty : string) : targetType :=
  λ T, match T with value_type ty' => String.eqb ty ty' | _ => false end.

(** [reflectlite.TypeOf(err).AssignableTo(targetType)]. *)
Definition AssignableTo (err : error) (T : targetType) : bool :=
  T (TypeOf err).

Inductive As_call : Type :=
| call_method_As (x : error)
| call_errors_As (err : option error)
| call_wrapper_As_loop (inner : option error).

Definition As_measure (c : As_call) : nat :=
  match c with
  | call_method_As x => 3 * unwrap_depth x + 1
  | call_errors_As None => 0
  | call_errors_As (Some e) => 3 * unwrap_depth e + 2
  | call_wrapper_As_loop None => 0
  | call_wrapper_As_loop (Some e) => 3 * unwrap_depth e + 3
  end.

Lemma As_measure_unwrap_errors (e : error) :
  As_measure (call_errors_As (errors_Unwrap e)) < 3 * unwrap_depth e + 2.
Proof.
  pose proof (UnwrapOnce_decreases e) as H. unfold UnwrapOnce in H.
  destruct (errors_Unwrap e); simpl in *; lia.
Qed.

Lemma As_measure_unwrap_loop (e : error) :
  As_measure (call_wrapper_As_loop (UnwrapOnce e)) < 3 * unwrap_depth e + 3.
Proof.
  pose proof (UnwrapOnce_decreases e) as H.
  destruct (UnwrapOnce e); simpl in *; lia.
Qed.

Lemma As_measure_wrapper_Unwrap (front back : error) :
  As_measure (call_wrapper_As_loop (wrapper_Unwrap front back))
  < 3 * S (unwrap_depth front + unwrap_depth back) + 1.
Proof.
  unfold wrapper_Unwrap.
  pose proof (UnwrapOnce_decreases front) as H. unfold UnwrapOnce in H.
  destruct (errors_Unwrap front); simpl in *; lia.
Qed.

(** [As_run T c]: the methods [As] of [*wrapper], [*withStack] and
    [*withFields], [errors.As] of the standard library, and the loop of
    [wrapper.As]. *)
Equations As_run (T : targetType) (c : As_call) : option error
  by wf (As_measure c) lt :=
As_run T (call_method_As (wrapper _ front back)) :=
  if AssignableTo front T then Some front
  else match As_run T (call_method_As front) with
       | Some found => Some found
       | None => As_run T (call_wrapper_As_loop (wrapper_Unwrap front back))
       end;
As_run T (call_method_As (withStack _ cause _ _)) :=
  if AssignableTo cause T then Some cause
  else As_run T (call_method_As cause);
As_run T (call_method_As (withFields _ _ cause _ _)) :=
  if AssignableTo cause T then Some cause
  else As_run T (call_method_As cause);
As_run T (call_method_As _) := None;
As_run T (call_errors_As None) := None;
As_run T (call_errors_As (Some err)) :=
  if AssignableTo err T then Some err
  else match As_run T (call_method_As err) with
       | Some found => Some found
       | None => As_run T (call_errors_As (errors_Unwrap err))
       end;
As_run T (call_wrapper_As_loop None) := None;
As_run T (call_wrapper_As_loop (Some inner)) :=
  match As_run T (call_errors_As (Some inner)) with
  | Some found => Some found
  | None => As_run T (call_wrapper_As_loop (UnwrapOnce inner))
  end.
Next Obligation. intros. simpl. lia. Qed.
Next Obligation. intros. apply As_measure_wrapper_Unwrap. Qed.
Next Obligation. intros. simpl. lia. Qed.
Next Obligation. intros. simpl. lia. Qed.
Next Obligation. intros. simpl. lia. Qed.
Next Obligation. intros. apply As_measure_unwrap_errors. Qed.
Next Obligation. intros. simpl. lia. Qed.
Next Obligation. intros. apply As_measure_unwrap_loop. Qed.

(** [x.As(target)] behind the type assertion
    [x, ok := c.(interface{ As(interface{}) bool })]. *)
Definition method_As (x : error) (T : targetType) : option error :=
  As_run T (call_method_As x).

(** The loop of [As], [for c := err; c != nil; c = UnwrapOnce(c)]. *)
Equations As_loop (T : targetType) (c : option error) : option error
  by wf (chain_length c) lt :=
As_loop T None := None;
As_loop T (Some c) :=
  if AssignableTo c T then Some c
  else match method_As c T with
       | Some found => Some found
       | None => As_loop T (UnwrapOnce c)
       end.
Next Obligation. unwrap_decreases. Qed.

(** [As(err, target)]. *)
Definition As (err : option error) (T : targetType) : option error :=
  As_loop T err.

(** ** withfields.go: reading the fields *)

(** The type of [tmpErr] in [var tmpErr *withFields], whose address is
    the target of [As]. *)
Definition withFields_target : targetType :=
  λ ty, match ty with withFields_ptr => true | _ => false end.

(** [tmpErr.fields] for the [tmpErr] that [As] stored. *)
Definition fields_of (tmpErr : error) : gmap string value :=
  match tmpErr with
  | withFields _ fields _ _ _ => fields
  | _ => ∅
  end.

(** [for k, v := range src { result[k] = v }]. *)
Definition copy_fields (result src : gmap string value) : gmap string value :=
  map_fold (λ k v result, <[k:=v]> result) result src.

(** [(w *withFields).getFields()]. *)
Definition getFields (w : error) : gmap string value :=
  let result : gmap string value := ∅ in
  let entries := getEntries (Some w) in
  let result :=
    foldl (λ result err,
             match As (Some err) withFields_target with
             | Some tmpErr => copy_fields result (fields_of tmpErr)
             | None => result
             end) result entries in
  copy_fields result (fields_of w).

(** [GetFields(err)]. *)
Definition GetFields (err : option error) : gmap string value :=
  match As err withFields_target with
  | Some tmpErr => getFields tmpErr
  | None => ∅
  end.


(** The first result that [f] gives along [l]. *)
Fixpoint first_found {A B : Type} (f : A → option B) (l : list A) : option B :=
  match l with
  | [] => None
  | x :: l' =>
      match f x with
      | Some y => Some y
      | None => first_found f l'
      end
  end.

(** ** stack.go and withstack.go: the verbose rendering *)

(** [runtime.Frame], with the fields the package reads. *)
Record runtime_Frame : Type := {
  frame_Function : string;
  frame_File : string;
  frame_Line : Z
}.

(** [var detailSep = []byte("\n  | ")]. *)
Definition detailSep : string := nl +:+ "  | ".

Section Rendering.

(** [runtime.CallersFrames(pcs)]: the frames that the iterator yields, in
    order.  The symbol table belongs to the Go runtime. *)
Variable runtime_CallersFrames : list uintptr → list runtime_Frame.

(** [strings.TrimSpace]. *)
Variable TrimSpace : string → string.

(** [type StackTrace runtime.Frames]: the frames still to be yielded. *)
Definition StackTrace := list runtime_Frame.

(** [(s *Stack).StackTrace()], for a non-nil [s]. *)
Definition Stack_StackTrace (s : Stack) : StackTrace :=
  runtime_CallersFrames s.

(** [(sf *stackTraceFormatter).FormatFrame(frame)]; the formatter is the
    pair of its buffer and of [nonEmpty]. *)
Definition FormatFrame (sf : string * bool) (frame : runtime_Frame)
  : string * bool :=
  let '(b, nonEmpty) := sf in
  let b := if nonEmpty then b +:+ nl else b in
  (b +:+ frame_Function frame +:+ nl +:+ tab +:+ frame_File frame
     +:+ ":" +:+ pretty (frame_Line frame), true).

(** [(sf *stackTraceFormatter).FormatStack(stack)]:
    [for frame, more := stack.Next(); more; frame, more = stack.Next()].
    [Next] reports [more = false] together with the last frame, which is
    therefore not formatted. *)
Fixpoint FormatStack (sf : string * bool) (stack : StackTrace)
  : string * bool :=
  match stack with
  | [] => sf
  | frame :: rest =>
      let more := match rest with [] => false | _ :: _ => true end in
      if more then FormatStack (FormatFrame sf frame) rest else sf
  end.

(** [(st *StackTrace).String()]. *)
Definition StackTrace_String (st : StackTrace) : string :=
  fst (FormatStack ("", false) st).

(** [w.StackTrace().String()] for the embedded [*Stack] of a node; [None]
    is the panic of dereferencing a nil pointer. *)
Definition Stack_String (s : option Stack) : option string :=
  match s with
  | Some pcs => Some (StackTrace_String (Stack_StackTrace pcs))
  | None => None
  end.

(** [outputStackTrace(st, hasSkippedFrames, stackTraceString)]; [st] is
    what has been written so far. *)
Definition outputStackTrace (st : string) (hasSkippedFrames : bool)
    (stackTraceString : string) : string :=
  let st :=
    if hasSkippedFrames || negb (String.eqb (TrimSpace stackTraceString) "")
    then st +:+ nl +:+ "  -- Stack trace:"
            +:+ ReplaceAll stackTraceString nl detailSep
    else st in
  if hasSkippedFrames
  then st +:+ detailSep +:+ "[...repeated from below...]"
  else st.

(** [printEntry(st, entry)]. *)
Definition printEntry (st : string) (entry : error) : option string :=
  let errString := Error entry in
  let st :=
    if 0 <? len errString
    then (if negb (HasPrefix errString nl) then st +:+ " " else st)
           +:+ errString
    else st in
  match entry with
  | withStack _ _ stack hasSkippedFrames =>
      s ← Stack_String stack; Some (outputStackTrace st hasSkippedFrames s)
  | withFields _ _ _ stack hasSkippedFrames =>
      s ← Stack_String stack; Some (outputStackTrace st hasSkippedFrames s)
  | _ => Some st
  end.

(** The second loop of [formatEntries],
    [for i, j := len(entries)-2, 2; i >= 0; i, j = i-1, j+1], at
    [i = n - 1]; [None] is a panic. *)
Fixpoint formatEntries_wraps (entries : list error) (st : string)
    (n j : nat) : option string :=
  match n with
  | O => Some st
  | S i =>
      let st := st +:+ nl +:+ "Wraps: (" +:+ pretty j +:+ ")" in
      entry ← entries !! i;
      st ← printEntry st entry;
      formatEntries_wraps entries st i (S j)
  end.

(** The third loop of [formatEntries],
    [for i, j := len(entries)-1, 1; i >= 0; i, j = i-1, j+1], at
    [i = n - 1]. *)
Fixpoint formatEntries_types (entries : list error) (st : string)
    (n j : nat) : option string :=
  match n with
  | O => Some st
  | S i =>
      entry ← entries !! i;
      formatEntries_types entries
        (st +:+ " (" +:+ pretty j +:+ ") " +:+ typeName entry) i (S j)
  end.

(** [(w *withStack).formatEntries(st)] for [w.cause = cause]. *)
Definition formatEntries (st : string) (cause : error) : option string :=
  let entries := getEntries (Some cause) in
  if length entries =? 0 then Some st
  else
    let st := st +:+ "(1)" in
    entry ← entries !! (length entries - 1);
    st ← printEntry st entry;
    st ← formatEntries_wraps entries st (length entries - 1) 2;
    let st := st +:+ nl +:+ "Error types:" in
    formatEntries_types entries st (length entries) 1.

(** [(w *withStack).Format(st, verb)]: the verbose rendering of [w]. *)
Definition withStack_Format (st : string) (w : error) : option string :=
  match w with
  | withStack _ cause stack _ =>
      st ← formatEntries st cause;
      s ← Stack_String stack;
      Some (outputStackTrace st false s)
  | _ => None
  end.





End Rendering.

(** ** sentry.go: parsing a printed stack trace *)

(** [Frame], with the fields that [parsePrintedStack] sets; the others
    keep their zero value. *)
Record Frame : Type := {
  Function : string;
  Module : string;
  Filename : string;
  AbsPath : string;
  Lineno : Z;
  InApp : bool
}.

(** [ReportableStackTrace]; [FramesOmitted] is never set. *)
Record ReportableStackTrace : Type := {
  Frames : list Frame
}.

(** [frames[i], frames[j] = frames[j], frames[i]]. *)
Definition swap {A : Type} (frames : list A) (i j : nat) : list A :=
  match frames !! i, frames !! j with
  | Some a, Some b => <[j:=a]> (<[i:=b]> frames)
  | _, _ => frames
  end.

(** [for i, j := i0, j0; i < j; i, j = i+1, j-1 { swap }]. *)
Equations reverse_loop {A : Type} (frames : list A) (i j : nat) : list A
  by wf (j - i) lt :=
reverse_loop frames i j with decide (i < j) := {
  | left _ => reverse_loop (swap frames i j) (S i) (j - 1)
  | right _ => frames
  }.
Next Obligation. intros. lia. Qed.

(** [functionName(fnName)]. *)
Definition functionName (fnName : string) : string * string :=
  let name := fnName in
  let idx := LastIndexByte name "." in
  let '(pack, name) :=
    if bool_decide (idx ≠ (-1)%Z)
    then (slice_to (Z.to_nat idx) name, slice_from (Z.to_nat (idx + 1)) name)
    else ("", name) in
  (pack, ReplaceAll name "·" ".").

Section Sentry.

(** [strings.TrimSpace], and the first result of [strconv.Atoi]. *)
Variable TrimSpace : string → string.
Variable Atoi : string → Z.

(** [var trimPaths []string], filled once by [init] from the source
    directories of the build. *)
Variable trimPaths : list string.

(** The loop of [trimPath] over the remaining [prefixes]. *)
Fixpoint trimPath_loop (prefixes : list string) (filename : string) : string :=
  match prefixes with
  | [] => filename
  | prefix :: prefixes' =>
      let trimmed := TrimPrefix filename prefix in
      if len trimmed <? len filename then trimmed
      else trimPath_loop prefixes' filename
  end.

(** [trimPath(filename)]. *)
Definition trimPath (filename : string) : string :=
  trimPath_loop trimPaths filename.

(** [parsePrintedStackEntry(lines, i)] for [i < len(lines)]. *)
Definition parsePrintedStackEntry (lines : list string) (i : nat)
  : nat * string * Z * string :=
  let fnName := nth i lines "" in
  if (i <? length lines - 1) && HasPrefix (nth (i + 1) lines "") tab
  then
    let fileLine := TrimSpace (nth (i + 1) lines "") in
    let lineSep := LastIndexByte fileLine ":" in
    if bool_decide (lineSep = (-1)%Z)
    then (i + 1, fileLine, 0%Z, fnName)
    else
      let file := slice_to (Z.to_nat lineSep) fileLine in
      let lineStr := slice_from (Z.to_nat (lineSep + 1)) fileLine in
      (i + 1, file, Atoi lineStr, fnName)
  else (i, "", 0%Z, fnName).

(** The frame that the body of the loop of [parsePrintedStack] composes. *)
Definition composeFrame (file : string) (line : Z) (fnName : string) : Frame :=
  let frame := {| AbsPath := file; Filename := trimPath file; Lineno := line;
                  InApp := true; Module := "unknown"; Function := fnName |} in
  if negb (String.eqb fnName "unknown")
  then
    let '(module, function) := functionName fnName in
    {| AbsPath := AbsPath frame; Filename := Filename frame;
       Lineno := Lineno frame; InApp := InApp frame;
       Module := module; Function := function |}
  else frame.

Definition entry_newI (r : nat * string * Z * string) : nat := r.1.1.1.
Definition entry_frame (r : nat * string * Z * string) : Frame :=
  composeFrame r.1.1.2 r.1.2 r.2.

Lemma parsePrintedStackEntry_newI (lines : list string) (i : nat) :
  i ≤ entry_newI (parsePrintedStackEntry lines i).
Proof.
  unfold parsePrintedStackEntry, entry_newI.
  repeat case_match; simpl; lia.
Qed.

(** The loop of [parsePrintedStack], [for i := 0; i < len(lines); i++]. *)
Equations parsePrintedStack_loop (lines : list string) (i : nat)
    (frames : list Frame) : list Frame by wf (length lines - i) lt :=
parsePrintedStack_loop lines i frames with decide (i < length lines) := {
  | left _ =>
      parsePrintedStack_loop lines
        (S (entry_newI (parsePrintedStackEntry lines i)))
        (frames ++ [entry_frame (parsePrintedStackEntry lines i)])
  | right _ => frames
  }.
Next Obligation.
  intros. pose proof (parsePrintedStackEntry_newI lines i). lia.
Qed.

(** [parsePrintedStack(st)]. *)
Definition parsePrintedStack (st : string) : option ReportableStackTrace :=
  let lines := Split1 (TrimSpace st) LF in
  let frames := parsePrintedStack_loop lines 0 [] in
  match frames with
  | [] => None
  | _ :: _ =>
      Some {| Frames := reverse_loop frames 0 (length frames - 1) |}
  end.

(** [fmt.Sprintf("%+v", st)] for a value [st] of the struct type
    [StackTrace].  The methods [String] and [Next] have the receiver
    [*StackTrace], so the value that [convertPkgStack] hands to [fmt] is
    neither a [fmt.Stringer] nor a [fmt.Formatter], and [fmt] prints the
    fields of the struct [runtime.Frames]; what it prints belongs to the
    packages [fmt] and [runtime]. *)
Variable Sprintf_plus_v : StackTrace → string.


(** The stack entries of a printed trace in the order of the text: a line
    with the function name, and after it, when it starts with a tab, the
    line with the file and the line number. *)
Fixpoint printed_entries (lines : list string) : list (string * option string) :=
  match lines with
  | [] => []
  | fnName :: rest =>
      match rest with
      | next :: rest' =>
          if HasPrefix next tab
          then (fnName, Some next) :: printed_entries rest'
          else (fnName, None) :: printed_entries rest
      | [] => [(fnName, None)]
      end
  end.

(** The frame of one stack entry. *)
Definition frame_of_entry (entry : string * option string) : Frame :=
  match entry with
  | (fnName, None) => composeFrame "" 0%Z fnName
  | (fnName, Some next) =>
      let fileLine := TrimSpace next in
      let lineSep := LastIndexByte fileLine ":" in
      if bool_decide (lineSep = (-1)%Z)
      then composeFrame fileLine 0%Z fnName
      else composeFrame (slice_to (Z.to_nat lineSep) fileLine)
             (Atoi (slice_from (Z.to_nat (lineSep + 1)) fileLine)) fnName
  end.

End Sentry.

(** ** wrap.go: a message wrapped over an error *)

(** [Wrap(err, msg)]; [p1] is the address of the error that [New]
    allocates, and [p2] that of the [wrapper]. *)
Definition Wrap (p1 p2 : ident) (err : option error) (msg : string)
  : option error :=
  With p2 err (Some (New p1 msg)).

(** ** What an error is built of *)

(** The errors that [err] is built of: [err] itself and, one level after
    the other, the errors that the nodes hold in [err], [front], [back]
    and [cause]. *)
Fixpoint parts (err : error) : list error :=
  err ::
  match err with
  | errorString _ _ => []
  | wrapError _ _ e => parts e
  | valueError _ _ => []
  | wrapper _ front back => parts front ++ parts back
  | withStack _ cause _ _ => parts cause
  | withFields _ _ cause _ _ => parts cause
  end.

Definition parts_of (err : option error) : list error :=
  match err with
  | Some e => parts e
  | None => []
  end.

(** The errors that a call of [Is_run] or of [As_run] is given. *)
Definition Is_call_parts (c : Is_call) : list error :=
  match c with
  | call_method_Is x => parts x
  | call_errors_Is err => parts_of err
  | call_wrapper_Is_loop inner => parts_of inner
  end.

Definition As_call_parts (c : As_call) : list error :=
  match c with
  | call_method_As x => parts x
  | call_errors_As err => parts_of err
  | call_wrapper_As_loop inner => parts_of inner
  end.

(** One visit of the loop of [As] or of [errors.As]: the error is
    assignable to the target type, or its method [As] stores an error. *)
Definition As_visit (T : targetType) (c : error) : option error :=
  if AssignableTo c T then Some c else method_As c T.

(** Every annotation that [err] is built of has a stack: no [*Stack] in
    it is nil. *)
Fixpoint stacks_present (err : error) : bool :=
  match err with
  | errorString _ _ => true
  | wrapError _ _ e => stacks_present e
  | valueError _ _ => true
  | wrapper _ front back => stacks_present front && stacks_present back
  | withStack _ cause stack _ =>
      bool_decide (is_Some stack) && stacks_present cause
  | withFields _ _ cause stack _ =>
      bool_decide (is_Some stack) && stacks_present cause
  end.

(** ** stack.go: the text of a stack trace *)

(** What [FormatFrame] writes for one frame. *)
Definition frame_text (frame : runtime_Frame) : string :=
  frame_Function frame +:+ nl +:+ tab +:+ frame_File frame
    +:+ ":" +:+ pretty (frame_Line frame).

(** [strings.Join(elems, sep)]. *)
Fixpoint Join (elems : list string) (sep : string) : string :=
  match elems with
  | [] => ""
  | x :: elems' =>
      match elems' with
      | [] => x
      | _ :: _ => x +:+ sep +:+ Join elems' sep
      end
  end.

(** ** withfields.go: the text of a field mapping *)

(** What the loop of [formatFields] writes for the key [k], after the
    comma. *)
Definition field_text (fields : gmap string value) (k : string) : string :=
  match default VNil (fields !! k) with
  | VNil => k
  | v => k +:+ ":" +:+ fmt_v v
  end.

(** ** withfields.go: the verbose rendering of a [*withFields] *)

(** [(w *withFields).formatAllFields()]. *)
Definition formatAllFields (w : error) : string := formatFields (getFields w).

Section RenderingFields.

Variable runtime_CallersFrames : list uintptr → list runtime_Frame.
Variable TrimSpace : string → string.

(** [(w *withFields).Format(st, verb)]; the method [formatEntries] of
    [*withFields] has the body of that of [*withStack].  [fmt.Fprint] puts
    no space between operands that are strings. *)
Definition withFields_Format (st : string) (w : error) : option string :=
  match w with
  | withFields _ _ cause stack _ =>
      let s := formatAllFields w in
      let st := st +:+ s in
      let st := st +:+ "cause:" +:+ Error cause +:+ nl +:+ "Wraps: " in
      st ← formatEntries runtime_CallersFrames TrimSpace st cause;
      stackTraceString ← Stack_String runtime_CallersFrames stack;
      Some (if negb (String.eqb stackTraceString "")
            then st +:+ nl +:+ "  -- Stack trace:"
                    +:+ ReplaceAll stackTraceString nl detailSep
            else st)
  | _ => None
  end.

End RenderingFields.

(** ** sentry.go: names of functions and frames for Sentry

    [strings.Index] and [strings.LastIndex] are called with a separator of
    one byte, for which they are [IndexByte] and [LastIndexByte]. *)

(** [strings.IndexByte(s, c)]: the index of the first [c] in [s], or [-1]. *)
Fixpoint IndexByte_from (i : Z) (s : string) (c : ascii) : Z :=
  match s with
  | EmptyString => (-1)%Z
  | String x s' =>
      if Ascii.eqb x c then i else IndexByte_from (i + 1)%Z s' c
  end.

Definition IndexByte (s : string) (c : ascii) : Z := IndexByte_from 0%Z s c.

(** [strings.HasSuffix(s, suffix)]:
    [len(s) >= len(suffix) && s[len(s)-len(suffix):] == suffix]. *)
Definition HasSuffix (s suffix : string) : bool :=
  (len suffix <=? len s)
  && String.eqb (slice_from (len s - len suffix) s) suffix.

(** [strings.Contains(s, substr)]. *)
Fixpoint Contains (s substr : string) : bool :=
  HasPrefix s substr ||
  match s with
  | EmptyString => false
  | String _ s' => Contains s' substr
  end.

(** [baseName(name)]. *)
Definition baseName (name : string) : string :=
  let i := LastIndexByte name "." in
  if bool_decide (i ≠ (-1)%Z) then slice_from (Z.to_nat (i + 1)) name
  else name.

(** [packageName(name)]. *)
Definition packageName (name : string) : string :=
  if HasPrefix name "go." || HasPrefix name "type." then ""
  else
    let pathend := LastIndexByte name "/" in
    let pathend := if (pathend <? 0)%Z then 0%Z else pathend in
    let i := IndexByte (slice_from (Z.to_nat pathend) name) "." in
    if bool_decide (i ≠ (-1)%Z)
    then slice_to (Z.to_nat (pathend + i)) name
    else "".

(** [splitQualifiedFunctionName(name)]. *)
Definition splitQualifiedFunctionName (name : string) : string * string :=
  let pkg := packageName name in
  let fun_ := TrimPrefix name (pkg +:+ ".") in
  (pkg, fun_).

(** [const unknown string = "unknown"]. *)
Definition unknown : string := "unknown".

(** The zero [runtime.Frame], which [Next] returns when the iterator has
    no frame. *)
Definition zero_Frame : runtime_Frame :=
  {| frame_Function := ""; frame_File := ""; frame_Line := 0%Z |}.

(** The frames that the iterator of [runtime.CallersFrames] returns until
    it reports that there are no more: one at least. *)
Definition yielded (callersFrames : list runtime_Frame) : list runtime_Frame :=
  match callersFrames with
  | [] => [zero_Frame]
  | _ :: _ => callersFrames
  end.

(** The frames that [filterFrames] keeps: those that are internal neither
    to Go nor to the Sentry SDK. *)
Definition reported (frame : Frame) : bool :=
  negb (String.eqb (Module frame) "runtime")
  && negb (String.eqb (Module frame) "testing")
  && negb (HasPrefix (Module frame) "github.com/getsentry/sentry-go"
           && negb (HasSuffix (Module frame) "_test")).

(** The loop of [filterFrames], [for _, frame := range frames]. *)
Fixpoint filterFrames_loop (frames filteredFrames : list Frame) : list Frame :=
  match frames with
  | [] => filteredFrames
  | frame :: rest =>
      if String.eqb (Module frame) "runtime"
         || String.eqb (Module frame) "testing"
      then filterFrames_loop rest filteredFrames
      else if HasPrefix (Module frame) "github.com/getsentry/sentry-go"
              && negb (HasSuffix (Module frame) "_test")
      then filterFrames_loop rest filteredFrames
      else filterFrames_loop rest (filteredFrames ++ [frame])
  end.

(** [filterFrames(frames)]; a nil slice is the empty list. *)
Definition filterFrames (frames : list Frame) : list Frame :=
  if length frames =? 0 then [] else filterFrames_loop frames [].

Section SentryFrames.

(** [runtime.CallersFrames(pcs)], [filepath.IsAbs] and
    [build.Default.GOROOT]. *)
Variable runtime_CallersFrames : list uintptr → list runtime_Frame.
Variable IsAbs : string → bool.
Variable GOROOT : string.

(** [isInAppFrame(frame)]. *)
Definition isInAppFrame (frame : Frame) : bool :=
  if HasPrefix (AbsPath frame) GOROOT
     || Contains (Module frame) "vendor"
     || Contains (Module frame) "third_party"
  then false
  else true.

(** [NewFrame(f)]. *)
Definition NewFrame (f : runtime_Frame) : Frame :=
  let '(abspath, relpath) :=
    if String.eqb (frame_File f) "" then ("", unknown)
    else if IsAbs (frame_File f) then (frame_File f, "")
    else ("", frame_File f) in
  let function := frame_Function f in
  let '(pkg, function) :=
    if negb (String.eqb function "") then splitQualifiedFunctionName function
    else ("", function) in
  let frame := {| AbsPath := abspath; Filename := relpath;
                  Lineno := frame_Line f; Module := pkg;
                  Function := function; InApp := false |} in
  {| AbsPath := AbsPath frame; Filename := Filename frame;
     Lineno := Lineno frame; Module := Module frame;
     Function := Function frame; InApp := isInAppFrame frame |}.

(** The loop of [extractFrames]: the frame that [Next] returns is put in
    front of [frames], and the loop ends when [Next] reports that no frame
    is left. *)
Fixpoint extractFrames_loop (callersFrames : list runtime_Frame)
    (frames : list Frame) : list Frame :=
  match callersFrames with
  | [] => NewFrame zero_Frame :: frames
  | callerFrame :: rest =>
      let frames := NewFrame callerFrame :: frames in
      match rest with
      | [] => frames
      | _ :: _ => extractFrames_loop rest frames
      end
  end.

(** [extractFrames(pcs)]. *)
Definition extractFrames (pcs : list uintptr) : list Frame :=
  extractFrames_loop (runtime_CallersFrames pcs) [].

(** [NewSentryStacktrace(pcs)] in a goroutine whose call stack, as
    [runtime.Callers] numbers it, is [goroutine]: what [pcs] holds after
    the call, and the result. *)
Definition NewSentryStacktrace (goroutine : list uintptr) (pcs : list uintptr)
  : list uintptr * option ReportableStackTrace :=
  let written := runtime_Callers goroutine 1 (length pcs) in
  let n := length written in
  let pcs := written ++ skipn n pcs in
  if n =? 0 then (pcs, None)
  else
    let frames := extractFrames (firstn n pcs) in
    let frames := filterFrames frames in
    (pcs, Some {| Frames := frames |}).

End SentryFrames.


Section Normalizer.

Variable runtime_CallersFrames : list uintptr → list runtime_Frame.
Variable IsAbs : string → bool.
Variable GOROOT : string.
Variable TrimSpace : string → string.
Variable Atoi : string → Z.
Variable trimPaths : list string.
Variable Sprintf_plus_v : StackTrace → string.


End Normalizer.

(** ** kinds: errors of a kind *)

(** [type errorKind string], with the method [Error]: the error value of
    the kind [kind]. *)
Definition errorKind (kind : string) : error :=
  valueError "errors.errorKind" kind.

Definition InternalKind : string := "internal error".
Definition UnspecifiedKind : string := "unspecified error".

(** The type of [khanKind] in [var khanKind errorKind], whose address is
    the target of [As]. *)
Definition errorKind_target : targetType := value_target "errors.errorKind".

(** The [errorKind] that [As] stored in [khanKind]. *)
Definition khanKind_of (found : error) : string :=
  match found with
  | valueError _ kind => kind
  | _ => ""
  end.

(** The loop of [getErrorKind],
    [for tmpErr := err; tmpErr != nil; tmpErr = UnwrapOnce(tmpErr)]; its
    body calls [As] on [err]. *)
Equations getErrorKind_loop (err tmpErr : option error) : string * bool
  by wf (chain_length tmpErr) lt :=
getErrorKind_loop err None := (UnspecifiedKind, false);
getErrorKind_loop err (Some t) with As err errorKind_target := {
  | Some found => (khanKind_of found, true)
  | None => getErrorKind_loop err (UnwrapOnce t)
  }.
Next Obligation. unwrap_decreases. Qed.

(** [getErrorKind(err)]. *)
Definition getErrorKind (err : option error) : string * bool :=
  getErrorKind_loop err err.

(** An argument of type [interface{}], by the cases of the type switch of
    [newError]: an error, a string, a [Fields], a
    [map[string]interface{}], or anything else, nil included. *)
Inductive any : Type :=
| any_error (v : error)
| any_string (v : string)
| any_Fields (v : option (gmap string value))
| any_map (v : option (gmap string value))
| any_other.

(** The loop of [newError] over [args]: the values of [message], [cause]
    and [fields] after it. *)
Definition newError_args (args : list any)
  : string * option error * option (gmap string value) :=
  foldl (λ '(message, cause, fields) arg,
           match arg with
           | any_error v => (message, Some v, fields)
           | any_string v => (v, cause, fields)
           | any_Fields v => (message, cause, v)
           | any_map v => (message, cause, v)
           | any_other => (message, cause, fields)
           end) ("", None, None) args.

(** [newError(kind, args...)]; [p1] is the address of the [wrapper] that
    [With] allocates and [p2] that of the annotation. *)
Definition newError (goroutine : list uintptr) (p1 p2 : ident)
    (kind : string) (args : list any) : option error :=
  let '(message, cause, fields) := newError_args args in
  let fields :=
    if negb (String.eqb message "")
    then match fields with
         | None => Some {["message" := VString message]}
         | Some fields => Some (<["message" := VString message]> fields)
         end
    else fields in
  match cause with
  | Some c =>
      if negb (equal c (errorKind kind))
      then
        let tmpErr := With p1 cause (Some (errorKind kind)) in
        WrapWithFieldsAndDepth goroutine p2 tmpErr fields 2
      else WrapWithFieldsAndDepth goroutine p2 (Some (errorKind kind)) fields 2
  | None => WrapWithFieldsAndDepth goroutine p2 (Some (errorKind kind)) fields 2
  end.

(* ================================================================== *)
(** * Part II: properties *)
(* ================================================================== *)

(** ** Chains *)

Lemma chain_unfold (e : error) :
  chain e = e :: chain_of (UnwrapOnce e).
Proof.
  unfold UnwrapOnce.
  induction e as [| | |p f IHf b IHb| |]; try reflexivity.
  cbn [chain errors_Unwrap]. f_equal.
  rewrite IHf. cbn [tail].
  destruct (errors_Unwrap f) as [f'|]; cbn [chain_of map app]; [|reflexivity].
  rewrite (IHb) at 1.
  destruct (chain f') as [|x l] eqn:E.
  - destruct f'; discriminate.
  - assert (x = f') as -> by (destruct f'; cbn in E; congruence).
    cbn [chain map tail app]. f_equal.
    replace (chain f') with (f' :: l)
      by (symmetry; destruct f'; cbn in E |- *; congruence).
    cbn [tail]. rewrite IHb. reflexivity.
Qed.


Lemma getEntries_loop_chain (err : option error) (entries : list error) :
  getEntries_loop err entries = rev (chain_of err) ++ entries.
Proof.
  funelim (getEntries_loop err entries); [|reflexivity].
  rewrite H. cbn [chain_of]. rewrite (chain_unfold e). cbn [rev].
  rewrite <- app_assoc. reflexivity.
Qed.

Lemma getEntries_chain (e : error) :
  getEntries (Some e) = rev (chain e).
Proof.
  unfold getEntries. rewrite getEntries_loop_chain.
  cbn [chain_of]. apply app_nil_r.
Qed.

Lemma rev_getEntries (e : error) :
  rev (getEntries (Some e)) = chain e.
Proof. rewrite getEntries_chain. apply rev_involutive. Qed.

(** C1. A single unwrap step of a [wrapper] drains [front] first: when
    [front] has a further unwrap step [f'], the step yields a new
    [wrapper] of [f'] over the same [back], and it yields [back] itself
    only when [front] has none.  Repeated unwrapping therefore visits the
    wrapper, then a wrapper around every later error of [front]'s chain,
    and then [back] and its chain. *)
Theorem wrapper_Unwrap_drains_front (p : ident) (front back : error) :
  UnwrapOnce (wrapper p front back) = wrapper_Unwrap front back ∧
  wrapper_Unwrap front back
  = match errors_Unwrap front with
    | Some f' => Some (wrapper Fresh f' back)
    | None => Some back
    end ∧
  rev (getEntries (Some (wrapper p front back)))
  = wrapper p front back
      :: map (λ f, wrapper Fresh f back) (tail (rev (getEntries (Some front))))
      ++ rev (getEntries (Some back)).
Proof.
  split; [reflexivity|]. split; [reflexivity|].
  rewrite !rev_getEntries. reflexivity.
Qed.

(** ** Stack capture *)

(** [captureStacktrace] returns the whole call stack from [skip + 2] on,
    however deep it is. *)
Lemma captureStacktrace_loop_whole (goroutine : list uintptr) (skip k : nat) :
  captureStacktrace_loop goroutine skip k = skipn skip goroutine.
Proof.
  funelim (captureStacktrace_loop goroutine skip k); [exact H|].
  clear Heq Heqcall. unfold runtime_Callers in *.
  rewrite length_take in n. apply firstn_all2. lia.
Qed.

Lemma captureStacktrace_whole (goroutine : list uintptr) (skip : nat) :
  captureStacktrace goroutine skip = skipn (skip + 2) goroutine.
Proof. apply captureStacktrace_loop_whole. Qed.

(** ** Suffix elision *)

Lemma ElideSharedStackSuffix_absent (prevStack newStack : option Stack) :
  prevStack = None ∨ prevStack = Some [] ∨ newStack = Some [] ∨ newStack = None →
  ElideSharedStackSuffix prevStack newStack = (newStack, false).
Proof.
  intros [->|[->|[->| ->]]]; unfold ElideSharedStackSuffix.
  - by destruct newStack.
  - by destruct newStack.
  - by destruct prevStack as [[|]|].
  - reflexivity.
Qed.

Lemma elide_loop_le (newSt prevSt : Stack) (i j : nat) :
  elide_loop newSt prevSt i j ≤ i.
Proof.
  revert j. induction i as [|i IH]; intros [|j]; cbn [elide_loop]; try lia.
  case_bool_decide; [lia|]. specialize (IH j). lia.
Qed.

(** The elided stack is never empty and starts with the newest frame. *)
Lemma ElideSharedStackSuffix_keeps_newest (prevStack : option Stack)
    (pc : uintptr) (newSt : Stack) :
  ∃ rest, (ElideSharedStackSuffix prevStack (Some (pc :: newSt))).1
          = Some (pc :: rest).
Proof.
  unfold ElideSharedStackSuffix.
  destruct prevStack as [prevSt|]; [|by eexists].
  destruct (length prevSt =? 0); [by eexists|].
  cbn [length Nat.eqb].
  match goal with |- context [elide_loop ?a ?b ?c ?d] =>
    destruct (elide_loop a b c d) as [|i] end;
    cbn [Nat.eqb fst firstn]; by eexists.
Qed.

Lemma elide_loop_same (s : Stack) (i : nat) : elide_loop s s i i = 0.
Proof.
  induction i as [|i IH]; cbn [elide_loop]; [reflexivity|].
  case_bool_decide; [congruence|exact IH].
Qed.

(** Eliding a stack against itself keeps the newest frame alone, and
    reports an elision when the stack had more than two frames. *)
Lemma ElideSharedStackSuffix_same (pc : uintptr) (s : Stack) :
  ElideSharedStackSuffix (Some (pc :: s)) (Some (pc :: s))
  = (Some [pc], 1 <? length s).
Proof.
  unfold ElideSharedStackSuffix. cbn [length Nat.eqb Nat.sub].
  rewrite ?Nat.sub_0_r, elide_loop_same. cbn [Nat.eqb firstn].
  reflexivity.
Qed.

(** The loop reads the two stacks only up to its indices. *)
Lemma elide_loop_app (newSt prevSt newer older : Stack) (i j : nat) :
  i < length newSt → j < length prevSt →
  elide_loop (newSt ++ newer) (prevSt ++ older) i j
  = elide_loop newSt prevSt i j.
Proof.
  revert j. induction i as [|i IH]; intros [|j] Hi Hj; try reflexivity.
  cbn [elide_loop].
  rewrite !app_nth1 by done. case_bool_decide; [reflexivity|].
  apply IH; lia.
Qed.

(** The loop compares the frames after the newest one of each stack, from
    the oldest end, and stops at the index of the first frame that has no
    match. *)
Lemma elide_loop_matches (pc pc' : uintptr) (newSt prevSt : Stack) :
  elide_loop (pc :: newSt) (pc' :: prevSt) (length newSt) (length prevSt)
  = length newSt - shared_suffix_length newSt prevSt.
Proof.
  unfold shared_suffix_length.
  revert prevSt. induction newSt as [|x newSt IH] using rev_ind;
    intros prevSt; [reflexivity|].
  destruct prevSt as [|y prevSt _] using rev_ind.
  { rewrite length_app, rev_app_distr. cbn. by rewrite Nat.add_1_r. }
  rewrite !length_app, !rev_app_distr, !Nat.add_1_r.
  cbn [length app rev common_prefix_length elide_loop].
  rewrite !app_comm_cons, !app_nth2 by (cbn [length]; lia).
  cbn [length]. rewrite !Nat.sub_diag. cbn [nth].
  repeat case_bool_decide; try congruence; [lia|].
  rewrite elide_loop_app by (cbn [length]; lia).
  rewrite IH. lia.
Qed.

(** What [ElideSharedStackSuffix] returns for two non-empty stacks: with
    [m] the number of frames that match among the frames after the newest
    one of each stack, the first [len(newStack) - 1 - m] frames of
    [newStack], or its newest frame when that number is zero. *)
Lemma ElideSharedStackSuffix_frames (pc pc' : uintptr) (newSt prevSt : Stack) :
  let m := shared_suffix_length newSt prevSt in
  let i := Nat.max 1 (length newSt - m) in
  ElideSharedStackSuffix (Some (pc' :: prevSt)) (Some (pc :: newSt))
  = (Some (firstn i (pc :: newSt)), i <? length newSt).
Proof.
  intros m i. unfold ElideSharedStackSuffix.
  cbn [length Nat.eqb Nat.sub]. rewrite !Nat.sub_0_r, elide_loop_matches.
  fold m. subst i.
  destruct (length newSt - m) as [|n] eqn:Hn; cbn [Nat.eqb Nat.max];
    reflexivity.
Qed.

(** C2. The code at the input [prevStack = [7; 8; 9]],
    [newStack = [1; 2; 3]]: the two stacks share no suffix, so all three
    frames of [newStack] are unshared, yet the frame [3] is removed and the
    result is [[1; 2]], reported as not elided. *)
Theorem ElideSharedStackSuffix_drops_unshared_frame :
  ElideSharedStackSuffix (Some [7; 8; 9]%Z) (Some [1; 2; 3]%Z)
  = (Some [1; 2]%Z, false) ∧
  shared_suffix_length [1; 2; 3]%Z [7; 8; 9]%Z = 0 ∧
  firstn (unshared_frames [1; 2; 3]%Z [7; 8; 9]%Z) [1; 2; 3]%Z = [1; 2; 3]%Z.
Proof. repeat split. Qed.

(** C3. The code at a stack of two frames elided against itself: one
    frame is kept and one is removed, and the flag is [false]. *)
Theorem ElideSharedStackSuffix_same_two_frames (pc1 pc2 : uintptr) :
  ElideSharedStackSuffix (Some [pc1; pc2]) (Some [pc1; pc2])
  = (Some [pc1], false).
Proof. apply ElideSharedStackSuffix_same. Qed.

(** ** The combinator and the annotations *)

(** C6. The message of [With(a, b)] for non-nil [a] and [b]: the message
    of [b], a colon and a space, and the message of [a] when both messages
    are non-empty; the other message alone when one of them is empty.  In
    particular "two" wrapped over "one" reads "two: one". *)
Theorem With_Error (p : ident) (a b : error) :
  ∃ w, With p (Some a) (Some b) = Some w ∧
    (Error a ≠ "" → Error b ≠ "" → Error w = Error b +:+ ": " +:+ Error a) ∧
    (Error b = "" → Error w = Error a) ∧
    (Error a = "" → Error w = Error b) ∧
    (∀ p1 p2 p3,
       Error <$> With p3 (Some (New p1 "one")) (Some (New p2 "two"))
       = Some "two: one").
Proof.
  exists (wrapper p b a). split; [reflexivity|].
  cbn [Error].
  destruct (String.eqb_spec (Error b) "") as [Hb|Hb];
    destruct (String.eqb_spec (Error a) "") as [Ha|Ha];
    repeat split; intros; try congruence; reflexivity.
Qed.

(** [With_Error] at "two" wrapped over "one". *)
Lemma With_Error_witness :
  ∃ w, With (Addr 3) (Some (New (Addr 1) "one")) (Some (New (Addr 2) "two"))
       = Some w ∧ Error w = "two: one".
Proof.
  destruct (With_Error (Addr 3) (New (Addr 1) "one") (New (Addr 2) "two"))
    as (w & Hw & Hboth & _).
  exists w. split; [exact Hw|]. apply Hboth; discriminate.
Defined.

(** C7. Absent inputs give absent results: [With] of a nil [back] is nil,
    [With] of a nil [front] is [back] itself, with no node around it, and
    the annotations of a nil cause are nil. *)
Theorem absent_inputs (goroutine : list uintptr) (p : ident)
    (b f : option error) (fields : option (gmap string value)) (depth : nat) :
  With p None f = None ∧
  With p b None = b ∧
  WithStack goroutine p None = None ∧
  WithStackDepth goroutine p None depth = None ∧
  WrapWithFields goroutine p None fields = None ∧
  WrapWithFieldsAndDepth goroutine p None fields depth = None.
Proof. repeat split. by destruct b. Qed.

(** C10. Attaching a stack leaves the message unchanged: the node that
    [WithStack] returns for a non-nil [err] has the message of [err]. *)
Theorem WithStack_Error (goroutine : list uintptr) (p : ident) (err : error) :
  ∃ w, WithStack goroutine p (Some err) = Some w ∧ Error w = Error err.
Proof.
  unfold WithStack, WithStackDepth.
  destruct (ElideSharedStackSuffix _ _) as [st hasSkippedFrames].
  eexists. split; reflexivity.
Qed.

(** ** [Is] *)

Lemma Is_run_wrapper (target : error) (p : ident) (front back : error) :
  Is_run target (call_method_Is (wrapper p front back))
  = Is_visit target front
    || Is_run target (call_method_Is back)
    || Is_run target (call_wrapper_Is_loop (wrapper_Unwrap front back)).
Proof.
  simp Is_run. unfold Is_visit, Comparable. cbn [andb].
  repeat (case_match; cbn [orb]; try reflexivity).
Qed.

Lemma Is_run_errors (target e : error) :
  Is_run target (call_errors_Is (Some e))
  = Is_visit target e || Is_run target (call_errors_Is (errors_Unwrap e)).
Proof.
  simp Is_run. unfold Is_visit, Comparable. cbn [andb].
  repeat (case_match; cbn [orb]; try reflexivity).
Qed.

Lemma Is_run_loop (target inner : error) :
  Is_run target (call_wrapper_Is_loop (Some inner))
  = Is_run target (call_errors_Is (Some inner))
    || Is_run target (call_wrapper_Is_loop (UnwrapOnce inner)).
Proof.
  simp Is_run. repeat (case_match; cbn [orb]; try reflexivity).
Qed.

Lemma Is_loop_Some (reference c : error) :
  Is_loop reference (Some c)
  = Is_visit reference c || Is_loop reference (UnwrapOnce c).
Proof.
  simp Is_loop. unfold Is_visit, tryDelegateToIsMethod, method_Is.
  repeat (case_match; cbn [orb]; try reflexivity).
Qed.

(** Induction along the unwrap steps of a chain. *)
Lemma unwrap_ind (P : option error → Prop) :
  P None →
  (∀ e, P (UnwrapOnce e) → P (Some e)) →
  ∀ err, P err.
Proof.
  intros HNone HSome err.
  remember (chain_length err) as n eqn:Hn.
  revert err Hn. induction n as [n IH] using lt_wf_ind. intros [e|] Hn.
  - apply HSome. apply (IH (chain_length (UnwrapOnce e))); [|reflexivity].
    subst n. apply UnwrapOnce_decreases.
  - exact HNone.
Qed.

Lemma chain_of_unfold (e : error) :
  chain_of (Some e) = e :: chain_of (UnwrapOnce e).
Proof. apply chain_unfold. Qed.

(** [errors.Is] visits the chain of [err] from the outermost error. *)
Lemma Is_run_errors_chain (target : error) (err : option error) :
  Is_run target (call_errors_Is err)
  = existsb (Is_visit target) (chain_of err).
Proof.
  induction err as [|e IH] using unwrap_ind.
  - by simp Is_run.
  - rewrite Is_run_errors, chain_of_unfold. cbn [existsb].
    unfold UnwrapOnce in IH. by rewrite IH.
Qed.

(** So does the loop of [Is]. *)
Lemma Is_loop_chain (reference : error) (err : option error) :
  Is_loop reference err = existsb (Is_visit reference) (chain_of err).
Proof.
  induction err as [|e IH] using unwrap_ind.
  - by simp Is_loop.
  - rewrite Is_loop_Some, chain_of_unfold. cbn [existsb]. by rewrite IH.
Qed.

(** The loop of [wrapper.Is] runs [errors.Is] on every error of the chain
    of [inner]. *)
Lemma Is_run_loop_chain (target : error) (inner : option error) :
  Is_run target (call_wrapper_Is_loop inner)
  = existsb (λ c, existsb (Is_visit target) (chain c)) (chain_of inner).
Proof.
  induction inner as [|e IH] using unwrap_ind.
  - by simp Is_run.
  - rewrite Is_run_loop, Is_run_errors_chain, IH.
    change (chain_of (Some e)) with (chain e).
    symmetry. rewrite (chain_unfold e) at 1. reflexivity.
Qed.

(** [Is] and [errors.Is] agree on the errors modelled here. *)
Lemma Is_errors_Is (err : error) (reference : error) :
  Is (Some err) (Some reference) = errors_Is (Some err) (Some reference).
Proof.
  unfold Is, errors_Is. by rewrite Is_loop_chain, Is_run_errors_chain.
Qed.


Lemma wrapper_chain_tail (front back : error) :
  chain_of (wrapper_Unwrap front back)
  = map (λ f, wrapper Fresh f back) (tail (chain front)) ++ chain back.
Proof.
  pose proof (chain_of_unfold (wrapper Fresh front back)) as H.
  cbn [chain_of chain] in H. by inversion H.
Qed.

(** C5. [Is] finds in [With(a, b)] every target that it finds in [a] or
    in [b]. *)
Theorem Is_With (p : ident) (a b x : error) :
  Is (Some a) (Some x) = true ∨ Is (Some b) (Some x) = true →
  Is (With p (Some a) (Some b)) (Some x) = true.
Proof.
  intros H. cbn [With Is]. rewrite Is_loop_Some.
  apply orb_true_iff. left. unfold Is_visit. apply orb_true_iff. right.
  rewrite Is_run_wrapper, Is_run_loop_chain, wrapper_chain_tail.
  rewrite existsb_app. cbn [Is] in H. rewrite !Is_loop_chain in H.
  cbn [chain_of] in H.
  destruct H as [Ha|Hb].
  - (* the target is found in the chain of [back] *)
    rewrite (chain_unfold a) at 1. cbn [existsb]. rewrite Ha.
    by rewrite !orb_true_r.
  - (* the target is found in the chain of [front] *)
    rewrite (chain_unfold b) in Hb. cbn [existsb] in Hb.
    apply orb_true_iff in Hb as [Hb|Hb]; [by rewrite Hb|].
    apply existsb_exists in Hb as (c & Hc & Hvisit).
    assert (existsb (λ c0, existsb (Is_visit x) (chain c0))
              (map (λ f, wrapper Fresh f a) (tail (chain b))) = true) as ->;
      [|by rewrite !orb_true_r].
    apply existsb_exists. exists (wrapper Fresh c a). split.
    + apply in_map_iff. exists c. split; [reflexivity|].
      rewrite (chain_unfold b). exact Hc.
    + rewrite (chain_unfold (wrapper Fresh c a)). cbn [existsb].
      unfold Is_visit at 1. rewrite Is_run_wrapper, Hvisit.
      by rewrite !orb_true_r.
Qed.

(** [Is_With] at the errors of [TestWithIs]: the error that [wrapped]
    wraps is found in [With(wrapped, NotFound)]. *)
Lemma Is_With_witness :
  Is (Some (wrapError (Addr 2) "wilbur: some pig" (New (Addr 1) "some pig")))
     (Some (New (Addr 1) "some pig")) = true ∧
  Is (With (Addr 4)
        (Some (wrapError (Addr 2) "wilbur: some pig" (New (Addr 1) "some pig")))
        (Some (New (Addr 3) "not found")))
     (Some (New (Addr 1) "some pig")) = true.
Proof.
  assert (Is (Some (wrapError (Addr 2) "wilbur: some pig"
                      (New (Addr 1) "some pig")))
             (Some (New (Addr 1) "some pig")) = true) as H
    by (vm_compute; reflexivity).
  split; [exact H|].
  apply (Is_With (Addr 4) _ (New (Addr 3) "not found")). left. exact H.
Defined.

(** ** Field aggregation *)

Lemma copy_fields_union (result src : gmap string value) :
  copy_fields result src = src ∪ result.
Proof.
  unfold copy_fields.
  apply (map_fold_weak_ind (λ r (m : gmap string value), r = m ∪ result)).
  - by rewrite (left_id_L ∅ (∪)).
  - intros k v m r _ ->. by rewrite insert_union_l.
Qed.

Lemma As_loop_Some (T : targetType) (c : error) :
  As_loop T (Some c)
  = if AssignableTo c T then Some c
    else match method_As c T with
         | Some found => Some found
         | None => As_loop T (UnwrapOnce c)
         end.
Proof. by simp As_loop. Qed.

(** What [As] stores is assignable to the target type. *)
Lemma As_run_assignable (T : targetType) (c : As_call) (found : error) :
  As_run T c = Some found → AssignableTo found T = true.
Proof.
  funelim (As_run T c); intros Hfound; try done; clear Heqcall;
    repeat (case_match; try done); try injection Hfound as <-; eauto.
Qed.

Lemma As_assignable (T : targetType) (err : option error) (found : error) :
  As err T = Some found → AssignableTo found T = true.
Proof.
  unfold As. induction err as [|e IH] using unwrap_ind.
  - by simp As_loop.
  - rewrite As_loop_Some. unfold method_As.
    destruct (AssignableTo e T) eqn:He; [by intros [= <-]|].
    destruct (As_run T (call_method_As e)) eqn:Hm; [|exact IH].
    intros [= <-]. by eapply As_run_assignable.
Qed.







(** ** The verbose rendering *)

Lemma append_assoc (s1 s2 s3 : string) :
  (s1 +:+ s2) +:+ s3 = s1 +:+ s2 +:+ s3.
Proof.
  induction s1 as [|c s1 IH]; [reflexivity|].
  change (String c ((s1 +:+ s2) +:+ s3) = String c (s1 +:+ s2 +:+ s3)).
  by f_equal.
Qed.


Lemma rev_lookup {A : Type} (l : list A) (i : nat) :
  i < length l → rev l !! i = l !! (length l - S i).
Proof. intros Hi. rewrite rev_alt. by apply reverse_lookup. Qed.

Section RenderingFacts.

Variable symbols : list uintptr → list runtime_Frame.
Variable TrimSpace : string → string.






End RenderingFacts.


(** ** Parsing a printed stack trace *)

Lemma swap_lookup {A : Type} (l : list A) (i j k : nat) :
  i < length l → j < length l →
  swap l i j !! k
  = if decide (k = j) then l !! i
    else if decide (k = i) then l !! j
    else l !! k.
Proof.
  intros Hi Hj. unfold swap.
  destruct (lookup_lt_is_Some_2 l i Hi) as [a Ha].
  destruct (lookup_lt_is_Some_2 l j Hj) as [b Hb].
  rewrite Ha, Hb.
  destruct (decide (k = j)) as [->|Hkj].
  - rewrite list_lookup_insert_eq; [done|]. by rewrite length_insert.
  - rewrite list_lookup_insert_ne by done.
    destruct (decide (k = i)) as [->|Hki].
    + by rewrite list_lookup_insert_eq.
    + by rewrite list_lookup_insert_ne.
Qed.

Lemma swap_length {A : Type} (l : list A) (i j : nat) :
  length (swap l i j) = length l.
Proof. unfold swap. repeat case_match; by rewrite ?length_insert. Qed.

(** The loop that swaps [frames[i]] and [frames[j]] while [i < j] mirrors
    the part of [frames] between [i] and [j]. *)
Lemma reverse_loop_lookup {A : Type} (l : list A) (i j k : nat) :
  j < length l →
  reverse_loop l i j !! k
  = if decide (i ≤ k ≤ j) then l !! (i + j - k) else l !! k.
Proof.
  funelim (reverse_loop l i j); intros Hj.
  - rewrite H by (rewrite swap_length; lia).
    repeat case_decide; rewrite swap_lookup by lia;
      repeat case_decide; try lia; try done; f_equal; lia.
  - repeat case_decide; try done. f_equal. lia.
Qed.

(** The loop of [parsePrintedStack] reverses [frames] in place. *)
Lemma reverse_loop_rev {A : Type} (l : list A) :
  reverse_loop l 0 (length l - 1) = rev l.
Proof.
  destruct l as [|x l]; [by simp reverse_loop|].
  apply list_eq. intros k.
  rewrite reverse_loop_lookup by (cbn [length]; lia).
  destruct (decide (k < length (x :: l))) as [Hk|Hk].
  - rewrite rev_lookup by done. case_decide; [f_equal|]; cbn [length] in *; lia.
  - rewrite (lookup_ge_None_2 (rev _)) by (rewrite length_rev; lia).
    case_decide; [cbn [length] in *; lia|].
    apply lookup_ge_None_2. lia.
Qed.

Lemma Split1_nonempty (s : string) (sep : ascii) : Split1 s sep ≠ [].
Proof.
  destruct s as [|c s]; cbn [Split1]; [done|].
  destruct (Ascii.eqb c sep); [done|]. by destruct (Split1 s sep).
Qed.

Lemma printed_entries_nonempty (lines : list string) :
  lines ≠ [] → printed_entries lines ≠ [].
Proof.
  destruct lines as [|fnName [|next rest]]; cbn [printed_entries]; try done.
  by destruct (HasPrefix next tab).
Qed.

Lemma printed_entries_cons2 (fnName next : string) (rest : list string) :
  printed_entries (fnName :: next :: rest)
  = if HasPrefix next tab
    then (fnName, Some next) :: printed_entries rest
    else (fnName, None) :: printed_entries (next :: rest).
Proof. reflexivity. Qed.

Section SentryFacts.

Variable TrimSpace : string → string.
Variable Atoi : string → Z.
Variable trimPaths : list string.

Lemma nth_skipn_cons (lines : list string) (i : nat) :
  i < length lines →
  skipn i lines = nth i lines "" :: skipn (S i) lines.
Proof.
  intros Hi. destruct (lookup_lt_is_Some_2 lines i Hi) as [x Hx].
  rewrite (drop_S _ _ _ Hx). f_equal. symmetry. by apply nth_lookup_Some.
Qed.

(** The loop of [parsePrintedStack] appends the frame of every stack
    entry from line [i] on, in the order of the text. *)
Lemma parsePrintedStack_loop_entries (lines : list string) (i : nat)
    (frames : list Frame) :
  parsePrintedStack_loop TrimSpace Atoi trimPaths lines i frames
  = frames ++ map (frame_of_entry TrimSpace Atoi trimPaths)
                (printed_entries (skipn i lines)).
Proof.
  funelim (parsePrintedStack_loop TrimSpace Atoi trimPaths lines i frames).
  - rewrite H. clear H Heqcall Heq. rewrite <- app_assoc. f_equal.
    rewrite (nth_skipn_cons lines i) by done.
    unfold parsePrintedStackEntry, entry_newI, entry_frame.
    replace (i + 1) with (S i) by lia.
    destruct (decide (S i < length lines)) as [Hnext|Hlast].
    + replace (i <? length lines - 1) with true
        by (symmetry; apply Nat.ltb_lt; lia).
      rewrite (nth_skipn_cons lines (S i)) by done.
      rewrite printed_entries_cons2. cbn [andb].
      destruct (HasPrefix (nth (S i) lines "") tab).
      * cbn [map app frame_of_entry]. by case_bool_decide.
      * cbn [fst snd map app frame_of_entry]. do 2 f_equal.
        by rewrite <- (nth_skipn_cons lines (S i)) by done.
    + replace (i <? length lines - 1) with false
        by (symmetry; apply Nat.ltb_ge; lia).
      cbn [andb fst snd]. by rewrite (skipn_all2 (n := S i)) by lia.
  - rewrite skipn_all2 by lia. cbn. by rewrite app_nil_r.
Qed.

(** A printed trace, newest entry first, is parsed line by line, a
    function-name line together with the tab-indented line that may
    follow it, and the frames come back oldest first: they are the parsed
    entries in reverse, so the first frame is that of the last stack
    entry of the text. *)
Lemma parsePrintedStack_oldest_first (st : string) :
  let parsed :=
    map (frame_of_entry TrimSpace Atoi trimPaths)
      (printed_entries (Split1 (TrimSpace st) LF)) in
  ∃ r, parsePrintedStack TrimSpace Atoi trimPaths st = Some r ∧
       Frames r = rev parsed ∧
       head (Frames r) = last parsed.
Proof.
  intros parsed. unfold parsePrintedStack.
  rewrite parsePrintedStack_loop_entries, skipn_O. cbn [app].
  change (map _ (printed_entries _)) with parsed.
  destruct parsed as [|frame frames] eqn:Hparsed.
  { apply map_eq_nil in Hparsed.
    by apply printed_entries_nonempty in Hparsed;
      [|apply Split1_nonempty]. }
  eexists. split; [reflexivity|]. cbn [Frames].
  rewrite reverse_loop_rev. split; [reflexivity|].
  rewrite rev_alt. exact (head_reverse (frame :: frames)).
Qed.

End SentryFacts.

(** ** What [Is] and [As] find *)

Lemma existsb_parts_self (P : error → bool) (e : error) :
  P e = true → existsb P (parts e) = true.
Proof. intros H. destruct e; cbn [parts existsb]; by rewrite H. Qed.

Section Parts.

(** [P] holds of no cell that [wrapper.Unwrap] allocates, unless it holds
    of every [wrapper]. *)
Variable P : error → bool.
Hypothesis P_Fresh :
  ∀ p f f' b, P (wrapper Fresh f' b) = true → P (wrapper p f b) = true.

(** A part of the cause of [e] on which [P] holds gives a part of [e] on
    which [P] holds. *)
Lemma parts_Unwrap (e : error) :
  existsb P (parts_of (errors_Unwrap e)) = true → existsb P (parts e) = true.
Proof.
  induction e as [| | |p f IHf b IHb| |];
    cbn [errors_Unwrap parts_of parts existsb];
    try done; try (intros ->; by rewrite orb_true_r).
  rewrite existsb_app.
  destruct (errors_Unwrap f) as [f'|]; cbn [parts_of parts existsb] in *.
  - rewrite existsb_app. intros [H|[H|H]%orb_true_iff]%orb_true_iff.
    + by rewrite (P_Fresh p f f' b H).
    + by rewrite (IHf H), !orb_true_r.
    + by rewrite H, !orb_true_r.
  - intros ->. by rewrite !orb_true_r.
Qed.

End Parts.

Lemma equal_Fresh (r : error) p f f' b :
  equal (wrapper Fresh f' b) r = true → equal (wrapper p f b) r = true.
Proof. by destruct r. Qed.

Lemma assignable_Fresh (T : targetType) p f f' b :
  AssignableTo (wrapper Fresh f' b) T = true →
  AssignableTo (wrapper p f b) T = true.
Proof. done. Qed.

(** Whatever [Is_run] accepts is equal to a part of the error it runs
    on. *)
Lemma Is_run_sound (r : error) (c : Is_call) :
  Is_run r c = true → existsb (λ c, equal c r) (Is_call_parts c) = true.
Proof.
  funelim (Is_run r c); intros Hrun; try done; clear Heqcall;
    unfold Comparable in Hrun; cbn [andb] in Hrun;
    cbn [Is_call_parts parts_of] in *.
  - destruct (equal front target) eqn:Hfront.
    { cbn [parts existsb]. rewrite existsb_app.
      by rewrite (existsb_parts_self (λ c, equal c target) front Hfront),
        !orb_true_r. }
    destruct (Is_run target (call_method_Is front)).
    { cbn [parts existsb]. rewrite existsb_app, H by done.
      by rewrite !orb_true_r. }
    destruct (Is_run target (call_method_Is back)).
    { cbn [parts existsb]. rewrite existsb_app, H0 by done.
      by rewrite !orb_true_r. }
    apply (parts_Unwrap _ (equal_Fresh target)). by apply H1.
  - cbn [parts existsb].
    destruct (equal cause target) eqn:Hcause.
    { by rewrite (existsb_parts_self (λ c, equal c target) cause Hcause),
        !orb_true_r. }
    destruct (Is_run target (call_method_Is cause)); [|done].
    by rewrite H, !orb_true_r.
  - cbn [parts existsb].
    destruct (equal cause target) eqn:Hcause.
    { by rewrite (existsb_parts_self (λ c, equal c target) cause Hcause),
        !orb_true_r. }
    destruct (Is_run target (call_method_Is cause)); [|done].
    by rewrite H, !orb_true_r.
  - destruct (equal err target) eqn:Herr.
    { by apply (existsb_parts_self (λ c, equal c target)). }
    destruct (Is_run target (call_method_Is err)); [by apply H|].
    apply (parts_Unwrap _ (equal_Fresh target)). by apply H0.
  - destruct (Is_run target (call_errors_Is (Some inner))); [by apply H|].
    apply (parts_Unwrap _ (equal_Fresh target)). by apply H0.
Qed.

(** A part of [e] that is equal to [r] is found by a visit of the chain
    of [e]. *)
Lemma Is_chain_parts (r : error) (e : error) :
  existsb (λ c, equal c r) (parts e) = true →
  existsb (Is_visit r) (chain e) = true.
Proof.
  induction e as [| |? ?|p f IHf b IHb|p cause IH ? ?|p ? cause IH ? ?];
    cbn [parts chain existsb]; rewrite ?existsb_app; unfold Is_visit at 1.
  - rewrite orb_false_r. by intros ->.
  - intros [->|H]%orb_true_iff; [done|]. by rewrite IHe, orb_true_r.
  - rewrite orb_false_r. by intros ->.
  - intros [->|[H|H]%orb_true_iff]%orb_true_iff; [done| |].
    + apply IHf in H. rewrite (chain_unfold f) in H. cbn [existsb] in H.
      apply orb_true_iff in H as [H|H].
      * rewrite Is_run_wrapper, H. by rewrite !orb_true_r.
      * apply existsb_exists in H as (c & Hc & Hvisit).
        apply orb_true_iff. right. apply orb_true_iff. left.
        apply existsb_exists. exists (wrapper Fresh c b). split.
        { apply in_map_iff. exists c. split; [done|].
          by rewrite (chain_unfold f). }
        unfold Is_visit at 1. rewrite Is_run_wrapper, Hvisit.
        by rewrite !orb_true_r.
    + by rewrite (IHb H), !orb_true_r.
  - intros [->|H]%orb_true_iff; [done|]. by rewrite IH, orb_true_r.
  - intros [->|H]%orb_true_iff; [done|]. by rewrite IH, orb_true_r.
Qed.

Lemma Is_Some_parts (e r : error) :
  Is (Some e) (Some r) = existsb (λ c, equal c r) (parts e).
Proof.
  cbn [Is]. rewrite Is_loop_chain. cbn [chain_of].
  destruct (existsb (λ c, equal c r) (parts e)) eqn:Hparts.
  - by apply Is_chain_parts.
  - destruct (existsb (Is_visit r) (chain e)) eqn:Hchain; [|done].
    rewrite <- Hparts. symmetry.
    change (chain e) with (chain_of (Some e)) in Hchain.
    rewrite <- Is_run_errors_chain in Hchain.
    by apply Is_run_sound in Hchain.
Qed.

(** X1. [Is(err, reference)] is [true] exactly when [reference] is equal
    to one of the errors that [err] is built of: [err] itself, or an error
    held as [err], [cause], [front] or [back] by a node of [err], at any
    depth.  A nil [reference] is found in a nil [err] only, and nothing is
    found in a nil [err] otherwise. *)
Theorem Is_parts (err reference : option error) :
  Is err reference
  = match err, reference with
    | None, None => true
    | Some e, Some r => existsb (λ c, equal c r) (parts e)
    | _, _ => false
    end.
Proof.
  destruct reference as [r|], err as [e|]; try done.
  apply Is_Some_parts.
Qed.

(** Whatever [As_run] stores comes from an error with a part that is
    assignable to the target type. *)
Lemma As_run_sound (T : targetType) (c : As_call) (found : error) :
  As_run T c = Some found →
  existsb (λ c, AssignableTo c T) (As_call_parts c) = true.
Proof.
  funelim (As_run T c); intros Hrun; try done; clear Heqcall;
    cbn [As_call_parts parts_of] in *.
  - destruct (AssignableTo front T) eqn:Hfront.
    { cbn [parts existsb]. rewrite existsb_app.
      by rewrite (existsb_parts_self (λ c, AssignableTo c T) front Hfront),
        !orb_true_r. }
    destruct (As_run T (call_method_As front)) as [x|].
    { cbn [parts existsb]. rewrite existsb_app, (H x eq_refl).
      by rewrite !orb_true_r. }
    apply (parts_Unwrap _ (assignable_Fresh T)). by eapply H0.
  - cbn [parts existsb].
    destruct (AssignableTo cause T) eqn:Hcause.
    { by rewrite (existsb_parts_self (λ c, AssignableTo c T) cause Hcause),
        !orb_true_r. }
    by rewrite (H _ Hrun), !orb_true_r.
  - cbn [parts existsb].
    destruct (AssignableTo cause T) eqn:Hcause.
    { by rewrite (existsb_parts_self (λ c, AssignableTo c T) cause Hcause),
        !orb_true_r. }
    by rewrite (H _ Hrun), !orb_true_r.
  - destruct (AssignableTo err T) eqn:Herr.
    { by apply (existsb_parts_self (λ c, AssignableTo c T)). }
    destruct (As_run T (call_method_As err)) as [x|]; [by apply (H x)|].
    apply (parts_Unwrap _ (assignable_Fresh T)). by eapply H0.
  - destruct (As_run T (call_errors_As (Some inner))) as [x|];
      [by apply (H x)|].
    apply (parts_Unwrap _ (assignable_Fresh T)). by eapply H0.
Qed.

Lemma As_run_wrapper (T : targetType) (p : ident) (front back : error) :
  As_run T (call_method_As (wrapper p front back))
  = match As_visit T front with
    | Some found => Some found
    | None => As_run T (call_wrapper_As_loop (wrapper_Unwrap front back))
    end.
Proof.
  simp As_run. unfold As_visit, method_As.
  by destruct (AssignableTo front T).
Qed.

Lemma As_run_errors (T : targetType) (e : error) :
  As_run T (call_errors_As (Some e))
  = match As_visit T e with
    | Some found => Some found
    | None => As_run T (call_errors_As (errors_Unwrap e))
    end.
Proof.
  simp As_run. unfold As_visit, method_As. by destruct (AssignableTo e T).
Qed.

Lemma As_run_loop (T : targetType) (inner : error) :
  As_run T (call_wrapper_As_loop (Some inner))
  = match As_run T (call_errors_As (Some inner)) with
    | Some found => Some found
    | None => As_run T (call_wrapper_As_loop (UnwrapOnce inner))
    end.
Proof. by simp As_run. Qed.

Lemma As_loop_visit (T : targetType) (c : error) :
  As_loop T (Some c)
  = match As_visit T c with
    | Some found => Some found
    | None => As_loop T (UnwrapOnce c)
    end.
Proof.
  rewrite As_loop_Some. unfold As_visit. by destruct (AssignableTo c T).
Qed.

(** [errors.As] and the loop of [As] visit the chain of [err] from the
    outermost error. *)
Lemma As_run_errors_chain (T : targetType) (err : option error) :
  As_run T (call_errors_As err) = first_found (As_visit T) (chain_of err).
Proof.
  induction err as [|e IH] using unwrap_ind.
  - by simp As_run.
  - rewrite As_run_errors, chain_of_unfold. cbn [first_found].
    unfold UnwrapOnce in IH. by rewrite IH.
Qed.

Lemma As_loop_chain (T : targetType) (err : option error) :
  As_loop T err = first_found (As_visit T) (chain_of err).
Proof.
  induction err as [|e IH] using unwrap_ind.
  - by simp As_loop.
  - rewrite As_loop_visit, chain_of_unfold. cbn [first_found]. by rewrite IH.
Qed.

Lemma As_errors_As (T : targetType) (err : option error) :
  As_run T (call_errors_As err) = As err T.
Proof. unfold As. by rewrite As_run_errors_chain, As_loop_chain. Qed.

Lemma first_found_is_Some {A B : Type} (f : A → option B) (l : list A) :
  is_Some (first_found f l) ↔ ∃ x, In x l ∧ is_Some (f x).
Proof.
  induction l as [|a l IH]; cbn [first_found In].
  - split; [by intros [? ?]|]. by intros (x & [] & _).
  - destruct (f a) as [y|] eqn:Ha.
    + split; [|by eauto]. intros _. exists a. split; [by left|].
      by rewrite Ha.
    + rewrite IH. split.
      * intros (x & Hx & Hfx). exists x. split; [by right|done].
      * intros (x & [->|Hx] & Hfx).
        { rewrite Ha in Hfx. by destruct Hfx. }
        by exists x.
Qed.

(** A part of [e] that is assignable to the target type makes a visit of
    the chain of [e] store an error. *)
Lemma As_chain_parts (T : targetType) (e : error) :
  existsb (λ c, AssignableTo c T) (parts e) = true →
  is_Some (first_found (As_visit T) (chain e)).
Proof.
  induction e as [| |? ?|p f IHf b IHb|p cause IH ? ?|p ? cause IH ? ?];
    cbn [parts chain existsb first_found]; rewrite ?existsb_app;
    unfold As_visit at 1.
  - rewrite orb_false_r. by intros ->.
  - intros [->|H]%orb_true_iff; [done|].
    destruct (AssignableTo _ T); [done|]. destruct (method_As _ T); [done|].
    by apply IHe.
  - rewrite orb_false_r. by intros ->.
  - intros [->|[H|H]%orb_true_iff]%orb_true_iff; [done| |].
    + destruct (AssignableTo (wrapper p f b) T); [done|].
      apply IHf in H. apply first_found_is_Some in H as (c & Hc & Hvisit).
      rewrite (chain_unfold f) in Hc. destruct Hc as [<-|Hc].
      * unfold method_As. rewrite As_run_wrapper.
        destruct Hvisit as [x ->]. done.
      * destruct (method_As (wrapper p f b) T); [done|].
        apply first_found_is_Some. exists (wrapper Fresh c b). split.
        { apply in_or_app. left. apply in_map_iff.
          exists c. split; [done|]. by rewrite (chain_unfold f). }
        unfold As_visit. destruct (AssignableTo _ T); [done|].
        unfold method_As. rewrite As_run_wrapper.
        destruct Hvisit as [x ->]. done.
    + destruct (AssignableTo (wrapper p f b) T); [done|].
      destruct (method_As (wrapper p f b) T); [done|].
      apply first_found_is_Some.
      apply IHb, first_found_is_Some in H as (c & Hc & Hvisit).
      exists c. split; [|done]. apply in_or_app. by right.
  - intros [->|H]%orb_true_iff; [done|].
    destruct (AssignableTo _ T); [done|]. destruct (method_As _ T); [done|].
    by apply IH.
  - intros [->|H]%orb_true_iff; [done|].
    destruct (AssignableTo _ T); [done|]. destruct (method_As _ T); [done|].
    by apply IH.
Qed.

Lemma As_None (T : targetType) (e : error) :
  As (Some e) T = None ↔ existsb (λ c, AssignableTo c T) (parts e) = false.
Proof.
  unfold As. split.
  - intros HAs. destruct (existsb _ _) eqn:Hparts; [|done].
    apply As_chain_parts in Hparts.
    rewrite As_loop_chain in HAs. cbn [chain_of] in HAs.
    rewrite HAs in Hparts. by destruct Hparts.
  - intros Hparts. destruct (As_loop T (Some e)) as [found|] eqn:HAs; [|done].
    rewrite As_loop_chain, <- As_run_errors_chain in HAs.
    apply As_run_sound in HAs. cbn [As_call_parts parts_of] in HAs. congruence.
Qed.

(** X2. [As(err, target)] finds an error exactly when one of the errors
    that [err] is built of is assignable to the type that [target] points
    to, and the error that it stores is assignable to that type. *)
Theorem As_parts (T : targetType) (e : error) :
  match As (Some e) T with
  | Some found =>
      AssignableTo found T = true ∧
      existsb (λ c, AssignableTo c T) (parts e) = true
  | None => existsb (λ c, AssignableTo c T) (parts e) = false
  end.
Proof.
  destruct (As (Some e) T) as [found|] eqn:HAs.
  - split; [by eapply As_assignable|].
    destruct (existsb _ _) eqn:Hparts; [done|].
    apply As_None in Hparts. congruence.
  - by apply As_None.
Qed.

(** The loop of [wrapper.As], started at [back]. *)
Lemma As_run_loop_back (T : targetType) (b : error) :
  As_run T (call_wrapper_As_loop (Some b)) = As (Some b) T.
Proof.
  rewrite As_run_loop, As_errors_As.
  destruct (As (Some b) T) as [found|] eqn:HAs; [done|].
  destruct (As_run T _) as [found|] eqn:Hloop; [|done].
  apply As_run_sound in Hloop. cbn [As_call_parts] in Hloop.
  apply (parts_Unwrap _ (assignable_Fresh T)) in Hloop.
  apply As_None in HAs. congruence.
Qed.

(** The method [As] of a [wrapper] stores what [As] finds in [front], and
    otherwise what it finds in [back]. *)
Lemma method_As_wrapper (T : targetType) (b : error) (front : option error) :
  T wrapper_ptr = false →
  match front with
  | Some f =>
      ∀ q, method_As (wrapper q f b) T
           = match As (Some f) T with
             | Some found => Some found
             | None => As (Some b) T
             end
  | None => True
  end.
Proof.
  intros HT. induction front as [|f IH] using unwrap_ind; [done|].
  intros q. unfold method_As. rewrite As_run_wrapper.
  unfold As at 1. rewrite As_loop_visit.
  destruct (As_visit T f) as [found|] eqn:Hvisit; [done|].
  unfold wrapper_Unwrap, UnwrapOnce in *.
  destruct (errors_Unwrap f) as [f'|] eqn:Hf'.
  - specialize (IH Fresh). fold (As (Some f') T).
    rewrite As_run_loop, As_run_errors.
    assert (As_visit T (wrapper Fresh f' b) = method_As (wrapper Fresh f' b) T)
      as -> by (unfold As_visit, AssignableTo; cbn [TypeOf]; by rewrite HT).
    rewrite IH.
    destruct (As (Some f') T) as [found|] eqn:Hfront; [done|].
    destruct (As (Some b) T) as [found|] eqn:Hback; [done|].
    apply As_None in Hfront, Hback.
    assert (existsb (λ c, AssignableTo c T) (parts (wrapper Fresh f' b)) = false)
      as Hparts.
    { cbn [parts existsb]. rewrite existsb_app, Hfront, Hback.
      unfold AssignableTo. cbn [TypeOf]. by rewrite HT. }
    destruct (As_run T (call_errors_As _)) as [found|] eqn:H1.
    { apply As_run_sound in H1. cbn [As_call_parts] in H1.
      apply (parts_Unwrap _ (assignable_Fresh T)) in H1. congruence. }
    destruct (As_run T (call_wrapper_As_loop _)) as [found|] eqn:H2; [|done].
    apply As_run_sound in H2. cbn [As_call_parts] in H2.
    apply (parts_Unwrap _ (assignable_Fresh T)) in H2. congruence.
  - simp As_loop. apply As_run_loop_back.
Qed.

Lemma As_wrapper (p : ident) (front back : error) (T : targetType) :
  T wrapper_ptr = false →
  As (Some (wrapper p front back)) T
  = match As (Some front) T with
    | Some found => Some found
    | None => As (Some back) T
    end.
Proof.
  intros HT.
  pose proof (method_As_wrapper T back (Some front) HT p) as Hmethod.
  unfold As at 1. rewrite As_loop_visit.
  assert (As_visit T (wrapper p front back) = method_As (wrapper p front back) T)
    as -> by (unfold As_visit, AssignableTo; cbn [TypeOf]; by rewrite HT).
  rewrite Hmethod.
  destruct (As (Some front) T) as [found|] eqn:Hfront; [done|].
  destruct (As (Some back) T) as [found|] eqn:Hback; [done|].
  apply As_None in Hfront, Hback.
  destruct (As_loop T _) as [found|] eqn:Hloop; [|done].
  rewrite As_loop_chain, <- As_run_errors_chain in Hloop.
  apply As_run_sound in Hloop. cbn [As_call_parts] in Hloop.
  apply (parts_Unwrap _ (assignable_Fresh T)) in Hloop.
  cbn [parts existsb] in Hloop. rewrite existsb_app, Hfront, Hback in Hloop.
  unfold AssignableTo in Hloop. cbn [TypeOf] in Hloop. by rewrite HT in Hloop.
Qed.

(** X3. [As] on [With(back, front)]: when [*wrapper] is assignable to the
    type the target points to, which is the case of the type [*wrapper]
    itself and of every interface it satisfies, such as [error], [As]
    stores the [*wrapper] itself; for every other target type it reads the
    two errors front first: it stores what it finds in [front], and what
    it finds in [back] only when it finds nothing in [front]. *)
Theorem As_With (p : ident) (back front : error) (T : targetType) :
  As (With p (Some back) (Some front)) T
  = if T wrapper_ptr then Some (wrapper p front back)
    else match As (Some front) T with
         | Some found => Some found
         | None => As (Some back) T
         end.
Proof.
  destruct (T wrapper_ptr) eqn:HT; [|by apply As_wrapper].
  cbn [With]. unfold As. rewrite As_loop_Some.
  unfold AssignableTo. cbn [TypeOf]. by rewrite HT.
Qed.

(** [As_With] at the errors of [TestWithAs]: [otherError] is found in the
    front of [err4], and [myError], of which the front has none, in its
    back; for a target of the interface type [error], it is [err4] itself
    that is stored. *)
Lemma As_With_witness :
  let err := valueError "errors_test.myError" "some pig" in
  let other := valueError "errors_test.otherError" "hi!" in
  let back := wrapError (Addr 1) "wilbur: some pig" err in
  let front := wrapError (Addr 2) "some other error: hi!" other in
  As (With (Addr 3) (Some back) (Some front))
    (value_target "errors_test.otherError") = Some other ∧
  As (With (Addr 3) (Some back) (Some front))
    (value_target "errors_test.myError") = Some err ∧
  As (With (Addr 3) (Some back) (Some front)) (λ _, true)
  = Some (wrapper (Addr 3) front back).
Proof.
  split; [|split].
  - rewrite (As_With (Addr 3) _ _ (value_target "errors_test.otherError")).
    vm_compute. reflexivity.
  - rewrite (As_With (Addr 3) _ _ (value_target "errors_test.myError")).
    vm_compute. reflexivity.
  - rewrite (As_With (Addr 3) _ _ (λ _, true)). reflexivity.
Defined.

Lemma GetFields_wrapper (p : ident) (front back : error) :
  GetFields (Some (wrapper p front back))
  = match As (Some front) withFields_target with
    | Some _ => GetFields (Some front)
    | None => GetFields (Some back)
    end.
Proof.
  unfold GetFields. rewrite As_wrapper by done.
  by destruct (As (Some front) withFields_target).
Qed.

(** X4. The fields of [With(back, front)] are those of [front] alone when
    [front] carries fields, whatever [back] carries, and those of [back]
    when [front] carries none. *)
Theorem GetFields_With (p : ident) (back front : error) :
  GetFields (With p (Some back) (Some front))
  = match As (Some front) withFields_target with
    | Some _ => GetFields (Some front)
    | None => GetFields (Some back)
    end.
Proof. apply GetFields_wrapper. Qed.

Lemma getLastStack_Some (e : error) :
  getLastStack (Some e)
  = match e with
    | withStack _ _ st _ => st
    | withFields _ _ _ st _ => st
    | _ => getLastStack (UnwrapOnce e)
    end.
Proof. destruct e; by simp getLastStack. Qed.

(** X5. [Wrap] of nil is nil.  [Wrap(err, msg)] of a non-nil [err] is an
    error that unwraps to [err] itself, keeps the last stack and the
    fields of [err], reads [msg: ] and then the message of [err] (one of
    the two alone when the other is empty), and in which [Is] finds the
    new error, the new message error, and whatever it finds in [err]. *)
Theorem Wrap_retains (p1 p2 : ident) (msg : string) :
  Wrap p1 p2 None msg = None ∧
  ∀ err : error, ∃ w,
    Wrap p1 p2 (Some err) msg = Some w ∧
    errors_Unwrap w = Some err ∧
    getLastStack (Some w) = getLastStack (Some err) ∧
    GetFields (Some w) = GetFields (Some err) ∧
    Error w = (if String.eqb msg "" then Error err
               else if String.eqb (Error err) "" then msg
               else msg +:+ ": " +:+ Error err) ∧
    ∀ reference : error,
      Is (Some w) (Some reference)
      = equal w reference || equal (New p1 msg) reference
        || Is (Some err) (Some reference).
Proof.
  split; [done|]. intros err. eexists. split; [reflexivity|].
  split; [done|]. split; [by rewrite getLastStack_Some|].
  split.
  { rewrite GetFields_wrapper.
    by rewrite (proj2 (As_None withFields_target (New p1 msg)) eq_refl). }
  split; [done|]. intros reference.
  rewrite !Is_Some_parts. cbn [parts existsb]. unfold New.
  cbn [parts app existsb]. by rewrite orb_assoc.
Qed.

(** ** Capturing and eliding stacks *)

(** X6. [Callers(skip)] returns the whole call stack from entry
    [skip + 2] on, however deep the stack is: the buffer of 64 entries is
    doubled until the stack fits, so nothing is cut. *)
Theorem Callers_whole_stack (goroutine : list uintptr) (skip : nat) :
  Callers goroutine skip = Some (skipn (skip + 2) goroutine).
Proof. unfold Callers. by rewrite captureStacktrace_whole. Qed.

Lemma ElideSharedStackSuffix_split (prevStack : option Stack) (newSt : Stack) :
  ∃ kept dropped flag,
    ElideSharedStackSuffix prevStack (Some newSt) = (Some kept, flag) ∧
    newSt = kept ++ dropped ∧
    (kept = [] → newSt = []) ∧
    (flag = true → 2 ≤ length dropped) ∧
    (prevStack = None → dropped = [] ∧ flag = false).
Proof.
  unfold ElideSharedStackSuffix.
  destruct prevStack as [prevSt|];
    [|exists newSt, [], false; by rewrite app_nil_r].
  destruct (length prevSt =? 0);
    [exists newSt, [], false; by rewrite app_nil_r|].
  destruct (length newSt =? 0) eqn:Hlen;
    [exists newSt, [], false; by rewrite app_nil_r|].
  apply Nat.eqb_neq in Hlen.
  set (i0 := elide_loop _ _ _ _). set (i := if i0 =? 0 then 1 else i0).
  exists (firstn i newSt), (skipn i newSt), (i <? length newSt - 1).
  split; [done|]. split; [by rewrite firstn_skipn|]. split; [|split; [|done]].
  - intros Hkept. destruct newSt; [done|].
    assert (1 ≤ i) as Hi
      by (subst i; destruct (i0 =? 0) eqn:E;
          [lia|apply Nat.eqb_neq in E; lia]).
    destruct i; [lia|discriminate].
  - intros Hflag%Nat.ltb_lt. rewrite length_skipn. lia.
Qed.

(** X7. Whatever the two stacks are, [ElideSharedStackSuffix] returns a
    prefix of [newStack]: the frames it keeps are the newest ones, in
    order.  It keeps a frame at least when [newStack] has one, and it
    reports an elision only when it has dropped two frames or more. *)
Theorem ElideSharedStackSuffix_prefix (prevStack : option Stack)
    (newSt : Stack) :
  ∃ kept dropped flag,
    ElideSharedStackSuffix prevStack (Some newSt) = (Some kept, flag) ∧
    newSt = kept ++ dropped ∧
    (kept = [] → newSt = []) ∧
    (flag = true → 2 ≤ length dropped).
Proof.
  destruct (ElideSharedStackSuffix_split prevStack newSt)
    as (kept & dropped & flag & H1 & H2 & H3 & H4 & _).
  by exists kept, dropped, flag.
Qed.

(** X8. For two stacks that are not empty, [ElideSharedStackSuffix] keeps
    the first [len(newStack) - 1 - m] frames of [newStack], and its newest
    frame alone when that number is zero, where [m] is the number of
    frames on which the two stacks agree from the oldest end, the newest
    frame of each stack left aside; it reports an elision when it keeps
    fewer than [len(newStack) - 1] frames. *)
Theorem ElideSharedStackSuffix_count (pc pc' : uintptr)
    (newSt prevSt : Stack) :
  let m := shared_suffix_length newSt prevSt in
  let i := Nat.max 1 (length newSt - m) in
  ElideSharedStackSuffix (Some (pc' :: prevSt)) (Some (pc :: newSt))
  = (Some (firstn i (pc :: newSt)), i <? length newSt).
Proof. apply ElideSharedStackSuffix_frames. Qed.

Lemma WithStackDepth_node (goroutine : list uintptr) (p : ident)
    (err : error) (fields : gmap string value) (depth : nat) :
  ∃ kept flag,
    WithStackDepth goroutine p (Some err) depth
    = Some (withStack p err (Some kept) flag) ∧
    WrapWithFieldsAndDepth goroutine p (Some err) (Some fields) depth
    = Some (withFields p fields err (Some kept) flag).
Proof.
  unfold WithStackDepth, WrapWithFieldsAndDepth, Callers.
  destruct (ElideSharedStackSuffix_split (getLastStack (Some err))
              (captureStacktrace goroutine (depth + 2)))
    as (kept & dropped & flag & Helide & _).
  unfold Stack in *. rewrite Helide. by exists kept, flag.
Qed.

(** X9. [WithStackDepth(err, depth)] and, for a non-nil map,
    [WrapWithFieldsAndDepth(err, fields, depth)] build a node around [err]
    itself whose stack is not nil and holds the newest frames of the call
    stack from the caller at [depth] on, in order.  The stack is the whole
    call stack when no error under [err] carries a stack, it is not empty
    unless the call stack is, and the node says that frames were skipped
    only when two frames or more were dropped. *)
Theorem WithStackDepth_stack (goroutine : list uintptr) (p : ident)
    (err : error) (fields : gmap string value) (depth : nat) :
  ∃ kept dropped flag,
    WithStackDepth goroutine p (Some err) depth
    = Some (withStack p err (Some kept) flag) ∧
    WrapWithFieldsAndDepth goroutine p (Some err) (Some fields) depth
    = Some (withFields p fields err (Some kept) flag) ∧
    skipn (depth + 4) goroutine = kept ++ dropped ∧
    (kept = [] → dropped = []) ∧
    (flag = true → 2 ≤ length dropped) ∧
    (getLastStack (Some err) = None → dropped = [] ∧ flag = false).
Proof.
  unfold WithStackDepth, WrapWithFieldsAndDepth, Callers.
  rewrite captureStacktrace_whole.
  replace (depth + 2 + 2) with (depth + 4) by lia.
  destruct (ElideSharedStackSuffix_split (getLastStack (Some err))
              (skipn (depth + 4) goroutine))
    as (kept & dropped & flag & Helide & Hsplit & Hkept & Hflag & Hfirst).
  unfold Stack in *. rewrite Helide.
  exists kept, dropped, flag. repeat split; try done.
  - intros ->. rewrite Hkept in Hsplit by done. by destruct dropped.
  - by apply Hfirst.
  - by apply Hfirst.
Qed.

(** ** The text of a stack trace *)

Lemma FormatStack_frames (b : string) (nonEmpty : bool) (st : StackTrace) :
  fst (FormatStack (b, nonEmpty) st)
  = match map frame_text (removelast st) with
    | [] => b
    | l => (if nonEmpty then b +:+ nl else b) +:+ Join l nl
    end.
Proof.
  revert b nonEmpty. induction st as [|f [|g rest] IH]; intros b nonEmpty;
    [done..|].
  change (FormatStack (b, nonEmpty) (f :: g :: rest))
    with (FormatStack ((if nonEmpty then b +:+ nl else b) +:+ frame_text f, true)
            (g :: rest)).
  rewrite IH.
  change (removelast (f :: g :: rest)) with (f :: removelast (g :: rest)).
  cbn [map Join].
  destruct (map frame_text (removelast (g :: rest))) as [|x l]; [done|].
  by rewrite !append_assoc.
Qed.

(** X10. [String] of a stack trace writes every frame but the last one,
    each as its function, a line feed, a tab, its file, a colon and its
    line, with a line feed between two frames; a trace of one frame or of
    none gives the empty string. *)
Theorem StackTrace_String_omits_last (st : StackTrace) :
  StackTrace_String st = Join (map frame_text (removelast st)) nl.
Proof.
  unfold StackTrace_String. rewrite FormatStack_frames.
  by destruct (map frame_text (removelast st)).
Qed.

(** ** The text of a field mapping *)

Lemma formatFields_loop_Join (fields : gmap string value) (sb : string)
    (i : nat) (keys : list string) :
  formatFields_loop fields sb i keys
  = match keys with
    | [] => sb
    | _ :: _ =>
        (if 0 <? i then sb +:+ "," else sb)
          +:+ Join (map (field_text fields) keys) ","
    end.
Proof.
  revert sb i. induction keys as [|k keys IH]; intros sb i; [done|].
  cbn [formatFields_loop]. rewrite IH.
  assert (formatFields_step fields sb i k
          = (if 0 <? i then sb +:+ "," else sb) +:+ field_text fields k)
    as ->.
  { unfold formatFields_step, field_text.
    destruct (default VNil (fields !! k)); by rewrite ?append_assoc. }
  cbn [map Join]. destruct keys as [|k' keys]; [done|].
  cbn [Nat.ltb Nat.leb]. by rewrite !append_assoc.
Qed.

(** X20. The text of a field mapping that is not empty is [fields:[], the
    entries with a comma between two of them, and [],]; an entry is the
    key, a colon and the value, and the key alone for a nil value.  Every
    key of the mapping has one entry, and the entries come by increasing
    key. *)
Theorem formatFields_sorted (fields : gmap string value) :
  formatFields fields
  = (if size fields =? 0 then ""
     else "fields:["
            +:+ Join (map (field_text fields) (sorted_keys fields)) ","
            +:+ "],") ∧
  StronglySorted String.le (sorted_keys fields) ∧
  NoDup (sorted_keys fields) ∧
  (∀ k, k ∈ sorted_keys fields ↔ is_Some (fields !! k)).
Proof.
  assert (sorted_keys fields ≡ₚ map fst (map_to_list fields)) as Hperm
    by apply merge_sort_Permutation.
  split; [|split; [|split]].
  - unfold formatFields. destruct (size fields =? 0) eqn:Hsize; [done|].
    rewrite formatFields_loop_Join.
    destruct (sorted_keys fields) as [|k keys] eqn:Hkeys;
      [|by rewrite append_assoc].
    apply Nat.eqb_neq in Hsize. exfalso. apply Hsize.
    rewrite map_size_empty_iff. apply map_to_list_empty_iff.
    apply Permutation_nil in Hperm. by destruct (map_to_list fields).
  - apply (StronglySorted_merge_sort _).
  - rewrite Hperm. apply (NoDup_fst_map_to_list fields).
  - intros k. rewrite Hperm.
    change (map fst (map_to_list fields)) with ((map_to_list fields).*1).
    rewrite list_elem_of_fmap. split.
    + intros ([k' v] & -> & Hkv). apply elem_of_map_to_list in Hkv.
      by exists v.
    + intros [v Hv]. exists (k, v). split; [done|].
      by apply elem_of_map_to_list.
Qed.

(** ** Rendering does not panic *)

Lemma stacks_present_chain (e : error) :
  stacks_present e = true →
  Forall (λ c, stacks_present c = true) (chain e).
Proof.
  induction e as [| |? ?|p f IHf b IHb|p cause IH ? ?|p ? cause IH ? ?];
    cbn [stacks_present chain]; intros He.
  - by repeat constructor.
  - constructor; [done|]. by apply IHe.
  - by repeat constructor.
  - apply andb_true_iff in He as [Hf Hb]. constructor.
    { cbn [stacks_present]. by rewrite Hf, Hb. }
    apply Forall_app. split; [|by apply IHb].
    apply Forall_forall. intros c (c' & <- & Hc')%list_elem_of_In%in_map_iff.
    cbn [stacks_present]. rewrite Hb, andb_true_r.
    specialize (IHf Hf). rewrite Forall_forall in IHf. apply IHf.
    apply list_elem_of_In. rewrite (chain_unfold f) in Hc' |- *. by right.
  - constructor; [done|]. apply andb_true_iff in He as [_ He]. by apply IH.
  - constructor; [done|]. apply andb_true_iff in He as [_ He]. by apply IH.
Qed.

Section RenderingSafety.

Variable symbols : list uintptr → list runtime_Frame.
Variable TrimSpace : string → string.

Lemma printEntry_is_Some (st : string) (entry : error) :
  stacks_present entry = true →
  is_Some (printEntry symbols TrimSpace st entry).
Proof.
  unfold printEntry.
  destruct entry as [| | | |p cause [s|] hs|p fields cause [s|] hs];
    cbn [stacks_present Stack_String mbind option_bind]; try done.
Qed.

Lemma formatEntries_wraps_is_Some (entries : list error) (st : string)
    (n j : nat) :
  Forall (λ c, stacks_present c = true) entries → n ≤ length entries →
  is_Some (formatEntries_wraps symbols TrimSpace entries st n j).
Proof.
  intros Hentries. revert st j. induction n as [|i IH]; intros st j Hn;
    cbn [formatEntries_wraps]; [done|].
  destruct (lookup_lt_is_Some_2 entries i) as [entry Hentry]; [lia|].
  rewrite Hentry. cbn [mbind option_bind].
  destruct (printEntry_is_Some (st +:+ nl +:+ "Wraps: (" +:+ pretty j +:+ ")")
              entry) as [st' ->].
  { rewrite Forall_forall in Hentries. apply Hentries.
    by eapply list_elem_of_lookup_2. }
  cbn [mbind option_bind]. apply IH. lia.
Qed.

Lemma formatEntries_types_is_Some (entries : list error) (st : string)
    (n j : nat) :
  n ≤ length entries → is_Some (formatEntries_types entries st n j).
Proof.
  revert st j. induction n as [|i IH]; intros st j Hn;
    cbn [formatEntries_types]; [done|].
  destruct (lookup_lt_is_Some_2 entries i) as [entry ->]; [lia|].
  cbn [mbind option_bind]. apply IH. lia.
Qed.

Lemma formatEntries_is_Some (st : string) (cause : error) :
  stacks_present cause = true →
  is_Some (formatEntries symbols TrimSpace st cause).
Proof.
  intros Hcause. unfold formatEntries.
  assert (Forall (λ c, stacks_present c = true) (getEntries (Some cause)))
    as Hentries.
  { rewrite getEntries_chain, rev_alt. apply Forall_reverse.
    by apply stacks_present_chain. }
  destruct (length (getEntries (Some cause)) =? 0) eqn:Hlen; [done|].
  apply Nat.eqb_neq in Hlen.
  destruct (lookup_lt_is_Some_2 (getEntries (Some cause))
              (length (getEntries (Some cause)) - 1)) as [entry Hentry]; [lia|].
  rewrite Hentry. cbn [mbind option_bind].
  destruct (printEntry_is_Some (st +:+ "(1)") entry) as [st1 ->].
  { rewrite Forall_forall in Hentries. apply Hentries.
    by eapply list_elem_of_lookup_2. }
  cbn [mbind option_bind].
  destruct (formatEntries_wraps_is_Some (getEntries (Some cause)) st1
              (length (getEntries (Some cause)) - 1) 2 Hentries) as [st2 ->];
    [lia|].
  cbn [mbind option_bind]. by apply formatEntries_types_is_Some.
Qed.

(** X11. The verbose rendering does not panic on an error in which every
    annotation has a stack: [formatEntries] writes its report for such a
    cause, and so do the methods [Format] of a [*withStack] and of a
    [*withFields] around it that have a stack themselves.  A [*withStack]
    whose stack is nil makes [Format] panic. *)
Theorem Format_never_panics (st : string) (cause : error) :
  stacks_present cause = true →
  is_Some (formatEntries symbols TrimSpace st cause) ∧
  (∀ p stack hs,
     is_Some (withStack_Format symbols TrimSpace st
                (withStack p cause (Some stack) hs))) ∧
  (∀ p fields stack hs,
     is_Some (withFields_Format symbols TrimSpace st
                (withFields p fields cause (Some stack) hs))) ∧
  (∀ p hs,
     withStack_Format symbols TrimSpace st (withStack p cause None hs) = None).
Proof.
  intros Hcause. split; [by apply formatEntries_is_Some|].
  split; [|split].
  - intros p stack hs. cbn [withStack_Format].
    by destruct (formatEntries_is_Some st cause Hcause) as [st' ->].
  - intros p fields stack hs. cbn [withFields_Format].
    match goal with |- context [formatEntries _ _ ?st0 cause] =>
      destruct (formatEntries_is_Some st0 cause Hcause) as [st' ->] end.
    done.
  - intros p hs. cbn [withStack_Format].
    by destruct (formatEntries symbols TrimSpace st cause).
Qed.

End RenderingSafety.

(** [Format_never_panics] at ["outer: inner"] wrapped over ["inner"], with
    a stack of one frame in the [*withStack] between them. *)
Lemma Format_never_panics_witness :
  let inner := withStack (Addr 2) (New (Addr 1) "inner") (Some [7]%Z) false in
  let outer := wrapError (Addr 3) "outer: inner" inner in
  stacks_present outer = true ∧
  is_Some (formatEntries (λ _, []) (λ s, s) "" outer).
Proof.
  intros inner outer.
  exact (conj eq_refl
           (proj1 (Format_never_panics (λ _, []) (λ s, s) "" outer eq_refl))).
Defined.

(** X12. The constructors keep every annotation with a stack: [New]
    builds an error without annotation, [With] and [Wrap] add none, and
    the node that [WithStackDepth] or [WrapWithFieldsAndDepth] adds has a
    stack, so that an error built with them has all its stacks when the
    errors it is built from have theirs. *)
Theorem constructors_attach_stacks (goroutine : list uintptr) (p p' : ident)
    (err front : error) (fields : gmap string value) (depth : nat)
    (msg : string) :
  stacks_present (New p msg) = true ∧
  stacks_present <$> With p (Some err) (Some front)
  = Some (stacks_present front && stacks_present err) ∧
  stacks_present <$> Wrap p p' (Some err) msg = Some (stacks_present err) ∧
  stacks_present <$> WithStackDepth goroutine p (Some err) depth
  = Some (stacks_present err) ∧
  stacks_present
    <$> WrapWithFieldsAndDepth goroutine p (Some err) (Some fields) depth
  = Some (stacks_present err) ∧
  stacks_present <$> WrapWithFieldsAndDepth goroutine p (Some err) None depth
  = Some (stacks_present err).
Proof.
  split; [done|]. split; [done|]. split; [done|].
  destruct (WithStackDepth_node goroutine p err fields depth)
    as (kept & flag & -> & ->).
  split; [done|]. split; [done|].
  unfold WrapWithFieldsAndDepth.
  destruct (WithStackDepth_node goroutine p err fields (depth + 1))
    as (kept' & flag' & -> & _). done.
Qed.

(** ** Names of functions and files *)

Lemma append_cons (c : ascii) (s1 s2 : string) :
  String c s1 +:+ s2 = String c (s1 +:+ s2).
Proof. reflexivity. Qed.

Lemma len_append (s1 s2 : string) : len (s1 +:+ s2) = len s1 + len s2.
Proof.
  induction s1 as [|c s1 IH]; [done|].
  rewrite append_cons. unfold len in *. cbn [String.length]. by rewrite IH.
Qed.

Lemma slice_from_0 (s : string) : slice_from 0 s = s.
Proof. by destruct s. Qed.

Lemma slice_to_from (n : nat) (s : string) :
  slice_to n s +:+ slice_from n s = s.
Proof.
  revert n. induction s as [|c s IH]; intros [|n]; try done.
  cbn [slice_to slice_from].
  change (String c (slice_to n s +:+ slice_from n s) = String c s).
  by rewrite IH.
Qed.

Lemma slice_to_add (n m : nat) (s : string) :
  slice_to (n + m) s = slice_to n s +:+ slice_to m (slice_from n s).
Proof.
  revert n. induction s as [|c s IH]; intros [|n];
    cbn [Nat.add slice_to slice_from].
  - by destruct m.
  - by destruct m.
  - done.
  - by rewrite append_cons, IH.
Qed.

Lemma slice_from_length (n : nat) (s : string) :
  len (slice_from n s) = len s - n.
Proof.
  revert n. induction s as [|c s IH]; intros [|n]; try done.
  cbn [slice_from]. unfold len in *. cbn [String.length]. apply IH.
Qed.

Lemma HasPrefix_app (p s : string) : HasPrefix (p +:+ s) p = true.
Proof.
  unfold HasPrefix. induction p as [|c p IH]; [by destruct s|].
  change (String.prefix (String c p) (String c (p +:+ s)) = true).
  cbn [String.prefix]. destruct (ascii_dec c c); [done|congruence].
Qed.

Lemma slice_from_app (p s : string) : slice_from (len p) (p +:+ s) = s.
Proof. induction p as [|c p IH]; [by destruct s|done]. Qed.

Lemma TrimPrefix_app (p s : string) : TrimPrefix (p +:+ s) p = s.
Proof. unfold TrimPrefix. by rewrite HasPrefix_app, slice_from_app. Qed.

Lemma HasPrefix_split (s p : string) :
  HasPrefix s p = true → s = p +:+ slice_from (len p) s.
Proof.
  unfold HasPrefix. revert s.
  induction p as [|c p IH]; intros s; [by destruct s|].
  destruct s as [|x s]; cbn; [done|].
  destruct (ascii_dec c x) as [->|]; [|done]. intros H.
  rewrite append_cons. f_equal. by apply IH.
Qed.

Lemma LastIndexByte_from_range (i : Z) (s : string) (c : ascii) :
  (0 ≤ i)%Z →
  LastIndexByte_from i s c = (-1)%Z ∨
  (i ≤ LastIndexByte_from i s c < i + Z.of_nat (len s))%Z.
Proof.
  revert i. induction s as [|x s IH]; intros i Hi; [by left|].
  cbn [LastIndexByte_from]. unfold len in *. cbn [String.length].
  destruct (IH (i + 1)%Z) as [->|Hlater]; [lia| |].
  - cbn. destruct (Ascii.eqb x c); [right; lia|by left].
  - destruct (Z.leb_spec 0 (LastIndexByte_from (i + 1) s c)); [right; lia|lia].
Qed.

Lemma LastIndexByte_from_absent (i j : Z) (s : string) (c : ascii) :
  (0 ≤ i)%Z → (0 ≤ j)%Z →
  LastIndexByte_from i s c = (-1)%Z → LastIndexByte_from j s c = (-1)%Z.
Proof.
  revert i j. induction s as [|x s IH]; intros i j Hi Hj; [done|].
  cbn [LastIndexByte_from].
  destruct (LastIndexByte_from_range (i + 1) s c) as [Hlater|Hlater]; [lia| |].
  - rewrite Hlater, (IH (i + 1)%Z (j + 1)%Z) by (done || lia). cbn.
    destruct (Ascii.eqb x c); [lia|done].
  - destruct (Z.leb_spec 0 (LastIndexByte_from (i + 1) s c)); lia.
Qed.

(** A string splits at the index that [LastIndexByte] returns, and the
    byte does not occur after it. *)
Lemma LastIndexByte_from_split (i : Z) (s : string) (c : ascii) :
  (0 ≤ i)%Z → LastIndexByte_from i s c ≠ (-1)%Z →
  let k := Z.to_nat (LastIndexByte_from i s c - i) in
  s = slice_to k s +:+ String c (slice_from (S k) s) ∧
  LastIndexByte (slice_from (S k) s) c = (-1)%Z.
Proof.
  revert i. induction s as [|x s IH]; intros i Hi Hfound; [done|].
  cbn [LastIndexByte_from] in *.
  destruct (LastIndexByte_from_range (i + 1) s c) as [Hlater|Hlater]; [lia| |].
  - rewrite Hlater in *. cbn in Hfound |- *.
    destruct (Ascii.eqb_spec x c) as [->|]; [|done].
    rewrite Z.sub_diag. cbn [Z.to_nat slice_to slice_from]. split; [done|].
    unfold LastIndexByte. rewrite slice_from_0.
    apply (LastIndexByte_from_absent (i + 1) 0); [lia|done|done].
  - destruct (Z.leb_spec 0 (LastIndexByte_from (i + 1) s c)); [|lia].
    destruct (IH (i + 1)%Z) as [Hsplit Habsent]; [lia..|].
    replace (Z.to_nat (LastIndexByte_from (i + 1) s c - i))
      with (S (Z.to_nat (LastIndexByte_from (i + 1) s c - (i + 1)))) by lia.
    cbn [slice_to slice_from]. rewrite append_cons. split; [by f_equal|done].
Qed.

Lemma LastIndexByte_split (s : string) (c : ascii) :
  LastIndexByte s c ≠ (-1)%Z →
  s = slice_to (Z.to_nat (LastIndexByte s c)) s
        +:+ String c (slice_from (Z.to_nat (LastIndexByte s c + 1)) s) ∧
  LastIndexByte (slice_from (Z.to_nat (LastIndexByte s c + 1)) s) c = (-1)%Z.
Proof.
  intros Hfound.
  destruct (LastIndexByte_from_split 0 s c ltac:(done) Hfound)
    as [Hsplit Habsent].
  fold (LastIndexByte s c) in *. rewrite Z.sub_0_r in *.
  replace (Z.to_nat (LastIndexByte s c + 1))
    with (S (Z.to_nat (LastIndexByte s c)))
    by (destruct (LastIndexByte_from_range 0 s c ltac:(done));
        unfold LastIndexByte in *; lia).
  done.
Qed.

Lemma IndexByte_from_range (i : Z) (s : string) (c : ascii) :
  IndexByte_from i s c = (-1)%Z ∨
  (i ≤ IndexByte_from i s c < i + Z.of_nat (len s))%Z.
Proof.
  revert i. induction s as [|x s IH]; intros i; [by left|].
  cbn [IndexByte_from]. unfold len in *. cbn [String.length].
  destruct (Ascii.eqb x c); [right; lia|].
  destruct (IH (i + 1)%Z) as [->|Hlater]; [by left|right; lia].
Qed.

Lemma IndexByte_from_split (i : Z) (s : string) (c : ascii) :
  (0 ≤ i)%Z → IndexByte_from i s c ≠ (-1)%Z →
  let k := Z.to_nat (IndexByte_from i s c - i) in
  s = slice_to k s +:+ String c (slice_from (S k) s).
Proof.
  revert i. induction s as [|x s IH]; intros i Hi Hfound; [done|].
  cbn [IndexByte_from] in *.
  destruct (Ascii.eqb_spec x c) as [->|].
  - by rewrite Z.sub_diag.
  - destruct (IndexByte_from_range (i + 1) s c) as [Hlater|Hlater]; [done|].
    specialize (IH (i + 1)%Z). cbn zeta in IH.
    replace (Z.to_nat (IndexByte_from (i + 1) s c - i))
      with (S (Z.to_nat (IndexByte_from (i + 1) s c - (i + 1)))) by lia.
    cbn [slice_to slice_from]. rewrite append_cons. f_equal.
    apply IH; [lia|done].
Qed.

(** X13. [baseName(name)] has no dot in it.  It is [name] itself when
    [name] has no dot, and otherwise [name] is a prefix, a dot, and
    [baseName(name)]. *)
Theorem baseName_after_last_dot (name : string) :
  LastIndexByte (baseName name) "." = (-1)%Z ∧
  (baseName name = name ∨ ∃ pack, name = pack +:+ "." +:+ baseName name).
Proof.
  unfold baseName. case_bool_decide as Hfound.
  - destruct (LastIndexByte_split name "." Hfound) as [Hsplit Habsent].
    split; [done|]. right. by eexists.
  - split; [|by left]. by destruct (decide (LastIndexByte name "." = (-1)%Z)).
Qed.

(** X14. [functionName(fnName)] splits [fnName] at its last dot: the
    package and, with every middle dot turned into a dot, what follows
    the last dot; joined by a dot, the package and what follows give
    [fnName] back.  The package is empty when [fnName] has no dot. *)
Theorem functionName_split (fnName : string) :
  (functionName fnName).2 = ReplaceAll (baseName fnName) "·" "." ∧
  (((functionName fnName).1 = "" ∧ baseName fnName = fnName) ∨
   fnName = (functionName fnName).1 +:+ "." +:+ baseName fnName).
Proof.
  unfold functionName, baseName. case_bool_decide as Hfound; cbn [fst snd].
  - split; [done|]. right.
    by destruct (LastIndexByte_split fnName "." Hfound) as [Hsplit _].
  - split; [done|]. by left.
Qed.

(** X15. [splitQualifiedFunctionName(name)] loses nothing: the package, a
    dot and the function give [name] back, unless no package is found and
    [name] does not start with a dot, and then the function is [name]. *)
Theorem splitQualifiedFunctionName_joins (name : string) :
  let '(pkg, fun_) := splitQualifiedFunctionName name in
  name = pkg +:+ "." +:+ fun_ ∨ (pkg = "" ∧ fun_ = name).
Proof.
  unfold splitQualifiedFunctionName.
  assert (∀ pkg, pkg = "" →
            name = pkg +:+ "." +:+ TrimPrefix name (pkg +:+ ".") ∨
            (pkg = "" ∧ TrimPrefix name (pkg +:+ ".") = name)) as Hnone.
  { intros ? ->. change ("" +:+ ".") with ".". unfold TrimPrefix.
    destruct (HasPrefix name ".") eqn:Hdot; [|by right].
    left. apply HasPrefix_split in Hdot. exact Hdot. }
  unfold packageName. destruct (_ || _); [by apply Hnone|].
  set (pathend := if (LastIndexByte name "/" <? 0)%Z then 0%Z
                  else LastIndexByte name "/").
  assert (0 ≤ pathend)%Z as Hpathend by (subst pathend; case_match; lia).
  case_bool_decide as Hi; [|by apply Hnone]. left.
  pose proof (IndexByte_from_split 0 _ _ ltac:(done) Hi) as Hfound.
  pose proof (IndexByte_from_range 0 (slice_from (Z.to_nat pathend) name) ".")
    as Hrange.
  fold (IndexByte (slice_from (Z.to_nat pathend) name) ".") in *.
  set (i := IndexByte (slice_from (Z.to_nat pathend) name) ".") in *.
  rewrite Z.sub_0_r in Hfound. cbn zeta in Hfound.
  replace (Z.to_nat (pathend + i)) with (Z.to_nat pathend + Z.to_nat i) by lia.
  set (pkg := slice_to (Z.to_nat pathend + Z.to_nat i) name).
  set (rest := slice_from (S (Z.to_nat i)) (slice_from (Z.to_nat pathend) name))
    in *.
  assert (name = (pkg +:+ ".") +:+ rest) as Hname.
  { subst pkg. rewrite slice_to_add, !append_assoc.
    change ("." +:+ rest) with (String "." rest). rewrite <- Hfound.
    by rewrite slice_to_from. }
  assert (TrimPrefix name (pkg +:+ ".") = rest) as ->
    by (rewrite Hname at 1; apply TrimPrefix_app).
  by rewrite <- append_assoc.
Qed.

Section TrimPathFacts.

Variable trimPaths : list string.

(** X16. [trimPath(filename)] removes from [filename] the first entry of
    [trimPaths] that is not empty and is a prefix of it, and leaves
    [filename] as it is when there is none. *)
Theorem trimPath_first_prefix (filename : string) :
  trimPath trimPaths filename
  = match List.find (λ prefix, HasPrefix filename prefix
                               && negb (String.eqb prefix ""))
            trimPaths with
    | Some prefix => slice_from (len prefix) filename
    | None => filename
    end.
Proof.
  unfold trimPath. induction trimPaths as [|prefix prefixes IH];
    cbn [trimPath_loop List.find]; [done|].
  unfold TrimPrefix. destruct (HasPrefix filename prefix) eqn:Hprefix.
  - rewrite slice_from_length. cbn [andb].
    destruct (String.eqb_spec prefix "") as [->|Hne]; cbn [negb].
    + replace (len filename - len "" <? len filename) with false; [done|].
      symmetry. apply Nat.ltb_ge. cbn. lia.
    + replace (len filename - len prefix <? len filename) with true; [done|].
      symmetry. apply Nat.ltb_lt.
      apply HasPrefix_split in Hprefix.
      assert (0 < len prefix) by (destruct prefix; [done|cbn; lia]).
      assert (len prefix ≤ len filename); [|lia].
      rewrite Hprefix, len_append. lia.
  - cbn [andb]. by rewrite Nat.ltb_irrefl.
Qed.

End TrimPathFacts.

(** ** Frames for Sentry *)

Lemma filterFrames_loop_filter (frames filteredFrames : list Frame) :
  filterFrames_loop frames filteredFrames
  = filteredFrames ++ List.filter reported frames.
Proof.
  revert filteredFrames.
  induction frames as [|frame rest IH]; intros filteredFrames;
    cbn [filterFrames_loop List.filter]; [by rewrite app_nil_r|].
  unfold reported at 1.
  destruct (String.eqb (Module frame) "runtime"); [by rewrite IH|].
  destruct (String.eqb (Module frame) "testing"); [by rewrite IH|].
  destruct (HasPrefix _ _ && _); cbn; rewrite IH; [done|].
  by rewrite <- app_assoc.
Qed.

Section SentryFramesFacts.

Variable symbols : list uintptr → list runtime_Frame.
Variable IsAbs : string → bool.
Variable GOROOT : string.

Lemma extractFrames_loop_rev (callersFrames : list runtime_Frame)
    (frames : list Frame) :
  extractFrames_loop IsAbs GOROOT callersFrames frames
  = rev (map (NewFrame IsAbs GOROOT) (yielded callersFrames)) ++ frames.
Proof.
  destruct callersFrames as [|f rest]; [done|]. cbn [yielded].
  revert f frames. induction rest as [|g rest IH]; intros f frames; [done|].
  change (extractFrames_loop IsAbs GOROOT (f :: g :: rest) frames)
    with (extractFrames_loop IsAbs GOROOT (g :: rest)
            (NewFrame IsAbs GOROOT f :: frames)).
  rewrite IH. cbn [map rev]. by rewrite <- !app_assoc.
Qed.

(** X17. [NewSentryStacktrace(pcs)] reports the call stack of the
    goroutine that calls it, from its own frame on and as far as [pcs]
    has room, whatever [pcs] held: it writes that stack over [pcs], and
    the frames it returns are those of that stack, the oldest first,
    without the frames of the packages [runtime] and [testing] and of the
    Sentry SDK.  It returns nil when there is no room or no stack. *)
Theorem NewSentryStacktrace_frames (goroutine pcs : list uintptr) :
  let captured := firstn (length pcs) (skipn 1 goroutine) in
  NewSentryStacktrace symbols IsAbs GOROOT goroutine pcs
  = (captured ++ skipn (length captured) pcs,
     match captured with
     | [] => None
     | _ :: _ =>
         Some {| Frames :=
                   List.filter reported
                     (rev (map (NewFrame IsAbs GOROOT)
                             (yielded (symbols captured)))) |}
     end).
Proof.
  intros captured. unfold NewSentryStacktrace, runtime_Callers. fold captured.
  destruct captured as [|pc captured']; [done|].
  cbn [length Nat.eqb]. f_equal. f_equal. f_equal.
  rewrite (take_app_length (pc :: captured')).
  unfold extractFrames, filterFrames.
  rewrite extractFrames_loop_rev, app_nil_r.
  destruct (length _ =? 0) eqn:Hrev; [|by rewrite filterFrames_loop_filter].
  apply Nat.eqb_eq in Hrev. rewrite length_rev, length_map in Hrev.
  by destruct (symbols (pc :: captured')).
Qed.

End SentryFramesFacts.

(** ** The stack of a [StackTraceProvider] *)



Section NormalizerFacts.

Variable symbols : list uintptr → list runtime_Frame.
Variable IsAbs : string → bool.
Variable GOROOT : string.
Variable TrimSpace : string → string.
Variable Atoi : string → Z.
Variable trimPaths : list string.
Variable Sprintf_plus_v : StackTrace → string.


End NormalizerFacts.


(** ** Errors of a kind *)

Lemma getErrorKind_loop_As (err tmpErr : option error) :
  getErrorKind_loop err tmpErr
  = match tmpErr, As err errorKind_target with
    | Some _, Some found => (khanKind_of found, true)
    | _, _ => (UnspecifiedKind, false)
    end.
Proof.
  funelim (getErrorKind_loop err tmpErr).
  - done.
  - by rewrite Heq.
  - rewrite Heq in *. rewrite H. by destruct (UnwrapOnce t).
Qed.

Lemma getErrorKind_found (e : error) (kind : string) :
  As (Some e) errorKind_target = Some (errorKind kind) →
  getErrorKind (Some e) = (kind, true).
Proof.
  intros HAs. unfold getErrorKind. by rewrite getErrorKind_loop_As, HAs.
Qed.

(** X18. [getErrorKind(err)] is the first [errorKind] that [As] finds in
    [err], and [UnspecifiedKind] with [false] when [As] finds none, as it
    does in a nil [err]; the steps of its loop along the chain change
    nothing. *)
Theorem getErrorKind_As (err : option error) :
  getErrorKind err
  = match As err errorKind_target with
    | Some (valueError _ kind) => (kind, true)
    | _ => (UnspecifiedKind, false)
    end.
Proof.
  unfold getErrorKind. rewrite getErrorKind_loop_As.
  destruct err as [e|]; [|by simp As_loop].
  destruct (As (Some e) errorKind_target) as [found|] eqn:HAs; [|done].
  apply As_assignable in HAs. by destruct found.
Qed.

Lemma newError_over_cause (goroutine : list uintptr) (p1 p2 : ident)
    (kind : string) (back : error) (fields : option (gmap string value))
    (depth : nat) :
  ∃ w, WrapWithFieldsAndDepth goroutine p2
         (With p1 (Some back) (Some (errorKind kind))) fields depth = Some w ∧
       As (Some w) errorKind_target = Some (errorKind kind) ∧
       parts w = w :: wrapper p1 (errorKind kind) back :: errorKind kind
                   :: parts back ∧
       (match fields with
        | Some fs => GetFields (Some w) = getFields w ∧ fields_of w = fs
        | None => True
        end).
Proof.
  cbn [With]. unfold WrapWithFieldsAndDepth, WithStackDepth.
  destruct fields as [fs|];
    destruct (ElideSharedStackSuffix _ _) as [st hs];
    eexists; (split; [reflexivity|]);
    (split; [unfold As; rewrite As_loop_Some; cbn; by simp As_run|]);
    (split; [done|]); [|done].
  split; [|done]. unfold GetFields, As. by rewrite As_loop_Some.
Qed.

Lemma newError_of_kind (goroutine : list uintptr) (p2 : ident)
    (kind : string) (fields : option (gmap string value)) (depth : nat) :
  ∃ w, WrapWithFieldsAndDepth goroutine p2 (Some (errorKind kind)) fields depth
       = Some w ∧
       As (Some w) errorKind_target = Some (errorKind kind) ∧
       parts w = [w; errorKind kind] ∧
       (match fields with
        | Some fs => GetFields (Some w) = getFields w ∧ fields_of w = fs
        | None => True
        end).
Proof.
  unfold WrapWithFieldsAndDepth, WithStackDepth.
  destruct fields as [fs|];
    destruct (ElideSharedStackSuffix _ _) as [st hs];
    eexists; (split; [reflexivity|]);
    (split; [unfold As; rewrite As_loop_Some; cbn; by simp As_run|]);
    (split; [done|]); [|done].
  split; [|done]. unfold GetFields, As. by rewrite As_loop_Some.
Qed.

Lemma equal_errorKind (kind : string) :
  equal (errorKind kind) (errorKind kind) = true.
Proof. unfold errorKind. cbn. by rewrite !String.eqb_refl. Qed.

Lemma getFields_own (w : error) (k : string) (v : value) :
  fields_of w !! k = Some v → getFields w !! k = Some v.
Proof.
  intros Hk. unfold getFields. rewrite copy_fields_union.
  by apply lookup_union_Some_l.
Qed.

(** X19. [newError(kind, args...)] never returns nil.  The error it
    returns is of the kind [kind], for [Is] and for [getErrorKind]; [Is]
    finds in it whatever it finds in the last error among [args]; and the
    last string among [args], when it is not empty, is its field
    ["message"]. *)
Theorem newError_kind (goroutine : list uintptr) (p1 p2 : ident)
    (kind : string) (args : list any) :
  ∃ w, newError goroutine p1 p2 kind args = Some w ∧
       Is (Some w) (Some (errorKind kind)) = true ∧
       getErrorKind (Some w) = (kind, true) ∧
       (∀ cause reference,
          (newError_args args).1.2 = Some cause →
          Is (Some cause) (Some reference) = true →
          Is (Some w) (Some reference) = true) ∧
       (∀ message,
          (newError_args args).1.1 = message → message ≠ "" →
          GetFields (Some w) !! "message" = Some (VString message)).
Proof.
  unfold newError.
  destruct (newError_args args) as [[message cause] fields]. cbn [fst snd].
  set (fields' := if negb (String.eqb message "") then _ else fields).
  assert (∀ w, (match fields' with
                | Some fs => GetFields (Some w) = getFields w ∧ fields_of w = fs
                | None => True
                end) →
               ∀ m, message = m → m ≠ "" →
                    GetFields (Some w) !! "message" = Some (VString m))
    as Hmessage.
  { intros w Hw m <- Hne. subst fields'.
    destruct (String.eqb_spec message ""); [done|]. cbn [negb] in Hw.
    destruct fields as [fs|]; destruct Hw as [-> Hfs];
      apply getFields_own; rewrite Hfs.
    - apply lookup_insert_eq.
    - apply lookup_singleton_eq. }
  assert (∀ w c, parts w = [w; errorKind kind] →
                 equal c (errorKind kind) = true →
                 ∀ r, Is (Some c) (Some r) = true → Is (Some w) (Some r) = true)
    as Hsame.
  { intros w c Hparts Hc r. rewrite !Is_Some_parts, Hparts.
    destruct c; try done. cbn [parts existsb]. rewrite orb_false_r.
    intros Hr. assert (equal (errorKind kind) r = true) as ->;
      [|by rewrite orb_true_r].
    unfold errorKind in *. destruct r; try done. cbn in *.
    apply andb_true_iff in Hc as [->%String.eqb_eq ->%String.eqb_eq].
    done. }
  destruct cause as [c|].
  - destruct (equal c (errorKind kind)) eqn:Hc; cbn [negb].
    + destruct (newError_of_kind goroutine p2 kind fields' 2)
        as (w & -> & HAs & Hparts & Hfields).
      exists w. split; [done|]. split.
      { rewrite Is_Some_parts, Hparts. cbn [existsb].
        by rewrite equal_errorKind, orb_true_r. }
      split; [by apply getErrorKind_found|].
      split; [|by apply Hmessage].
      intros cause r [= <-]. by apply Hsame.
    + destruct (newError_over_cause goroutine p1 p2 kind c fields' 2)
        as (w & -> & HAs & Hparts & Hfields).
      exists w. split; [done|]. split.
      { rewrite Is_Some_parts, Hparts. cbn [existsb].
        by rewrite equal_errorKind, !orb_true_r. }
      split; [by apply getErrorKind_found|].
      split; [|by apply Hmessage].
      intros cause r [= <-]. rewrite !Is_Some_parts, Hparts. cbn [existsb].
      intros ->. by rewrite !orb_true_r.
  - destruct (newError_of_kind goroutine p2 kind fields' 2)
      as (w & -> & HAs & Hparts & Hfields).
    exists w. split; [done|]. split.
    { rewrite Is_Some_parts, Hparts. cbn [existsb].
      by rewrite equal_errorKind, orb_true_r. }
    split; [by apply getErrorKind_found|].
    split; [done|by apply Hmessage].
Qed.

(** ** Annotations are transparent *)

Lemma As_withStack (p : ident) (cause : error) (stack : option Stack)
    (hs : bool) (T : targetType) :
  T withStack_ptr = false →
  As (Some (withStack p cause stack hs)) T = As (Some cause) T.
Proof.
  intros HT. unfold As. rewrite As_loop_visit.
  cbn [UnwrapOnce errors_Unwrap]. rewrite (As_loop_visit T cause).
  assert (As_visit T (withStack p cause stack hs) = As_visit T cause) as ->.
  { unfold As_visit at 1. unfold AssignableTo at 1. cbn [TypeOf].
    rewrite HT. unfold method_As. by simp As_run. }
  by destruct (As_visit T cause).
Qed.

Lemma As_withFields_node (p : ident) (fields : gmap string value)
    (cause : error) (stack : option Stack) (hs : bool) (T : targetType) :
  T withFields_ptr = false →
  As (Some (withFields p fields cause stack hs)) T = As (Some cause) T.
Proof.
  intros HT. unfold As. rewrite As_loop_visit.
  cbn [UnwrapOnce errors_Unwrap]. rewrite (As_loop_visit T cause).
  assert (As_visit T (withFields p fields cause stack hs) = As_visit T cause)
    as ->.
  { unfold As_visit at 1. unfold AssignableTo at 1. cbn [TypeOf].
    rewrite HT. unfold method_As. by simp As_run. }
  by destruct (As_visit T cause).
Qed.

Lemma getErrorKind_As_eq (e e' : error) :
  As (Some e) errorKind_target = As (Some e') errorKind_target →
  getErrorKind (Some e) = getErrorKind (Some e').
Proof.
  intros HAs. unfold getErrorKind. by rewrite !getErrorKind_loop_As, HAs.
Qed.

(** X21. What is read through an annotation is what is read from the
    error it annotates.  The node that [WithStackDepth] builds around a
    non-nil [err] unwraps to [err] itself; [Is] finds in it the node and
    whatever it finds in [err]; [As] stores the node itself when
    [*withStack] is assignable to the type the target points to, which is
    the case of [*withStack] and of every interface it satisfies, such as
    [error], and for every other target type it stores what it stores from
    [err]; and its fields and its kind are those of [err].  The same holds
    of the node that [WrapWithFieldsAndDepth] builds for a non-nil map,
    with [*withFields] in the place of [*withStack], and every field of
    the map is read back from it by [GetFields]. *)
Theorem annotations_transparent (goroutine : list uintptr) (p : ident)
    (err : error) (fields : gmap string value) (depth : nat) :
  ∃ ws wf,
    WithStackDepth goroutine p (Some err) depth = Some ws ∧
    WrapWithFieldsAndDepth goroutine p (Some err) (Some fields) depth
    = Some wf ∧
    errors_Unwrap ws = Some err ∧
    errors_Unwrap wf = Some err ∧
    (∀ r, Is (Some ws) (Some r) = equal ws r || Is (Some err) (Some r)) ∧
    (∀ r, Is (Some wf) (Some r) = equal wf r || Is (Some err) (Some r)) ∧
    (∀ T, As (Some ws) T
          = if T withStack_ptr then Some ws else As (Some err) T) ∧
    (∀ T, As (Some wf) T
          = if T withFields_ptr then Some wf else As (Some err) T) ∧
    GetFields (Some ws) = GetFields (Some err) ∧
    (∀ k v, fields !! k = Some v → GetFields (Some wf) !! k = Some v) ∧
    getErrorKind (Some ws) = getErrorKind (Some err) ∧
    getErrorKind (Some wf) = getErrorKind (Some err).
Proof.
  destruct (WithStackDepth_node goroutine p err fields depth)
    as (kept & flag & -> & ->).
  eexists _, _. split; [reflexivity|]. split; [reflexivity|].
  split; [done|]. split; [done|].
  split; [intros r; by rewrite !Is_Some_parts|].
  split; [intros r; by rewrite !Is_Some_parts|].
  split.
  { intros T. destruct (T withStack_ptr) eqn:HT; [|by apply As_withStack].
    unfold As. rewrite As_loop_Some.
    unfold AssignableTo. cbn [TypeOf]. by rewrite HT. }
  split.
  { intros T. destruct (T withFields_ptr) eqn:HT;
      [|by apply As_withFields_node].
    unfold As. rewrite As_loop_Some.
    unfold AssignableTo. cbn [TypeOf]. by rewrite HT. }
  split; [unfold GetFields; by rewrite As_withStack|].
  split.
  { intros k v Hk. unfold GetFields, As. rewrite As_loop_Some.
    cbn [AssignableTo TypeOf withFields_target]. by apply getFields_own. }
  split; apply getErrorKind_As_eq; [by apply As_withStack|].
  by apply As_withFields_node.
Qed.

(** ** The tests of the repository, run on the model *)

Module Tests.

(** [TestWithIs]. *)
Example TestWithIs :
  let NotFound := New (Addr 3) "not found" in
  let io_EOF := New (Addr 4) "EOF" in
  let pig := New (Addr 1) "some pig" in
  let wrapped := wrapError (Addr 2) "wilbur: some pig" pig in
  let err2 := With (Addr 5) (Some wrapped) (Some NotFound) in
  let err3 :=
    wrapError (Addr 7) "more context: EOF: not found: wilbur: some pig"
      <$> With (Addr 6) err2 (Some io_EOF) in
  Is err2 (Some NotFound) = true ∧
  Is err2 (Some pig) = true ∧
  Is err2 (Some wrapped) = true ∧
  Is err3 (Some NotFound) = true ∧
  Is err3 (Some pig) = true ∧
  Is err3 (Some wrapped) = true ∧
  Is err3 (Some io_EOF) = true.
Proof. vm_compute. repeat split. Qed.

(** [TestWithAs]. *)
Example TestWithAs :
  let NotFound := New (Addr 3) "not found" in
  let err := valueError "errors_test.myError" "some pig" in
  let wrapped := wrapError (Addr 2) "wilbur: some pig" err in
  let err2 := With (Addr 5) (Some wrapped) (Some NotFound) in
  let err3 :=
    wrapError (Addr 6) "more context: not found: wilbur: some pig" <$> err2 in
  let other := valueError "errors_test.otherError" "hi!" in
  let err4 :=
    With (Addr 8) err3
      (Some (wrapError (Addr 7) "some other error: hi!" other)) in
  As err3 (value_target "errors_test.myError") = Some err ∧
  As err4 (value_target "errors_test.otherError") = Some other ∧
  As err4 (value_target "errors_test.myError") = Some err ∧
  Is err4 (Some err) = true ∧
  Is err4 (Some other) = true.
Proof. vm_compute. repeat split. Qed.

(** [TestErrList]. *)
Example TestErrList :
  let new := λ n text, Some (New (Addr n) text) in
  let fivesix := With (Addr 7) (new 6 "six") (new 5 "five") in
  let threefour := With (Addr 8) (new 4 "four") (new 3 "three") in
  let onetwo := With (Addr 9) (new 2 "two") (new 1 "one") in
  let oneToFour := With (Addr 10) threefour onetwo in
  let all := With (Addr 11) fivesix oneToFour in
  Error <$> all = Some "one: two: three: four: five: six".
Proof. reflexivity. Qed.

(** [TestWithFieldsErrList]. *)
Example TestWithFieldsErrList :
  let fields := λ k msg,
    Some (<[k:=VString "true"]> (<["msg":=VString msg]> ∅)) in
  let one := Some (New (Addr 1) "one") in
  let two := WrapWithFields [] (Addr 2) one (fields "b" "two") in
  let three := WrapWithFields [] (Addr 3) two (fields "c" "three") in
  let four := WrapWithFields [] (Addr 4) three (fields "d" "four") in
  let five := WrapWithFields [] (Addr 5) four (fields "e" "five") in
  let six := WrapWithFields [] (Addr 6) five (fields "f" "six") in
  Error <$> six
  = Some ("fields:[f:true,msg:six],fields:[e:true,msg:five],"
          +:+ "fields:[d:true,msg:four],fields:[c:true,msg:three],"
          +:+ "fields:[b:true,msg:two],one").
Proof. vm_compute. reflexivity. Qed.

(** [TestWithFieldsAs]. *)
Example TestWithFieldsAs :
  let err := valueError "errors_test.myError" "some pig" in
  let wrapped := wrapError (Addr 2) "wilbur: some pig" err in
  let err2 :=
    WrapWithFields [] (Addr 3) (Some wrapped)
      (Some (<["key":=VString "value"]> ∅)) in
  let err3 :=
    wrapError (Addr 4) "more context: fields:[key:value],wilbur: some pig"
      <$> err2 in
  let other := valueError "errors_test.otherError" "hi!" in
  let err4 :=
    With (Addr 6) err3
      (Some (wrapError (Addr 5) "some other error: hi!" other)) in
  As err3 (value_target "errors_test.myError") = Some err ∧
  As err4 (value_target "errors_test.otherError") = Some other ∧
  As err4 (value_target "errors_test.myError") = Some err ∧
  Is err4 (Some err) = true ∧
  Is err4 (Some other) = true.
Proof. vm_compute. repeat split. Qed.

(** [TestWithFieldsIs]. *)
Example TestWithFieldsIs :
  let io_EOF := New (Addr 4) "EOF" in
  let err := New (Addr 1) "some pig" in
  let wrapped := wrapError (Addr 2) "wilbur: some pig" err in
  let err2 :=
    WrapWithFields [] (Addr 3) (Some wrapped)
      (Some (<["key":=VString "value"]> ∅)) in
  let err3 :=
    wrapError (Addr 6)
      "more context: EOF: fields:[key:value],wilbur: some pig"
      <$> With (Addr 5) err2 (Some io_EOF) in
  Is err2 (Some err) = true ∧
  Is err2 (Some wrapped) = true ∧
  Is err3 (Some err) = true ∧
  Is err3 (Some wrapped) = true ∧
  Is err3 (Some io_EOF) = true.
Proof. vm_compute. repeat split. Qed.

(** [TestWithFieldsErrAllList].  The call stack of the test holds, under
    the five frames from [runtime.Callers] up to [WrapWithFields], the
    frame of the test function, that of [testing.tRunner] and that of
    [runtime.goexit]; the program counters [1] and [2] are the two call
    sites in the test function.  No stack text is blank here, so
    [TrimSpace] tells the empty ones from the others as the identity
    does. *)
Example TestWithFieldsErrAllList :
  let frame := λ function file line,
    {| frame_Function := function; frame_File := file; frame_Line := line |} in
  let test :=
    frame "github.com/StevenACoffman/simplerr/errors_test.TestWithFieldsErrAllList"
      "github.com/StevenACoffman/simplerr/errors/withfields_test.go" in
  let symbols := λ pcs : list uintptr,
    map (λ pc : uintptr,
           if (pc =? 1)%Z then test 83%Z
           else if (pc =? 2)%Z then test 84%Z
           else if (pc =? 3)%Z
           then frame "testing.tRunner" "testing/testing.go" 1576%Z
           else frame "runtime.goexit" "runtime/asm_amd64.s" 1598%Z) pcs in
  let callers := [0; 0; 0; 0; 0]%Z in
  let fields := λ k msg,
    Some (<[k:=VString "true"]> (<["msg":=VString msg]> ∅)) in
  let one := Some (New (Addr 1) "one") in
  let two :=
    WrapWithFields (callers ++ [1; 3; 4]%Z) (Addr 2) one (fields "b" "two") in
  let three :=
    WrapWithFields (callers ++ [2; 3; 4]%Z) (Addr 3) two (fields "c" "three") in
  three ≫= withFields_Format symbols (λ s, s) ""
  = Some ("fields:[b:true,c:true,msg:three],cause:fields:[b:true,msg:two],one"
          +:+ nl +:+ "Wraps: (1) fields:[b:true,msg:two],one"
          +:+ nl +:+ "  -- Stack trace:"
          +:+ "github.com/StevenACoffman/simplerr/errors_test.TestWithFieldsErrAllList"
          +:+ nl +:+ "  | " +:+ tab
          +:+ "github.com/StevenACoffman/simplerr/errors/withfields_test.go:83"
          +:+ nl +:+ "  | testing.tRunner"
          +:+ nl +:+ "  | " +:+ tab +:+ "testing/testing.go:1576"
          +:+ nl +:+ "Wraps: (2) one"
          +:+ nl +:+ "Error types: (1) *errors.withFields (2) *errors.errorString").
Proof. vm_compute. reflexivity. Qed.

End Tests.
